(** * ThreadPool.hpp: a fixed-size worker pool over one locked FIFO queue

    A shallow embedding of [src/ThreadPool.hpp].  The pool is a record
    holding the members of [class ThreadPool] together with the free
    store of [std::packaged_task] shared states, the standard output and
    a history of events.  The program is an interleaving transition
    system: every thread has a program counter that names a line of the
    source, and one step executes one atomic action of one thread.

    What is taken from the C++ standard library rather than from the
    source is said where it is used: [std::packaged_task::operator()]
    stores the result or the exception of the callable in the shared
    state, [std::condition_variable::wait] with a predicate is a loop
    around the predicate, and destroying a joinable [std::thread] calls
    [std::terminate].

    Granularity.  A worker takes one step per line of [wait_for_work]
    and [try_pop]; every read of the atomic flag [m_done] is a step of
    its own, also the one at line 151: [destroy] stores the flag
    without the mutex, so the store can fall between that read and the
    pop of lines 154-155.  A call of [submit] is one step: all it
    shares with other threads it touches inside [add_task]'s critical
    section.  The steps of the constructor and of [destroy] are the
    calls they make; the unwinding after a failed construction is one
    step of the owner.

    Not modelled.  A callable is a function from its arguments to what
    it returns or throws; it has no effect of its own on the pool.
    Shared states are never freed.  The model ends when [destroy]
    returns: the destruction of the members (and the broken promises of
    the tasks still queued) is outside it. *)

From stdpp Require Import numbers base option list strings.

Set Default Proof Using "Type".

(** ** Exceptions and results *)

(** A thrown object either satisfies the [std::exception] contract
    (it has a [what()] message) or it is anything else, e.g. [throw 42]. *)
Inductive exn : Type :=
| StdException (what : string)
| Foreign (tag : nat).

#[global] Instance exn_eq_dec : EqDecision exn.
Proof. solve_decision. Defined.

(** [class ThreadPoolException : public std::exception], lines 69-80. *)
Definition ThreadPoolException (msg : string) : exn := StdException msg.

(** Lines 176-180. *)
Definition constructor_failed : string :=
  "Failed to allocate or create threads in ThreadPool constructor".
Definition adding_task_failed : string :=
  "ThreadPool::submit caught exception while enqueueing task".

(** [std::future_error] derives from [std::logic_error]. *)
Definition promise_already_satisfied : exn := StdException "Promise already satisfied".
Definition no_state : exn := StdException "No associated state".

(** What invoking a callable does: it returns a value or throws. *)
Inductive outcome (R : Type) : Type :=
| Returned (v : R)
| Threw (e : exn).
Arguments Returned {R} v.
Arguments Threw {R} e.

(** ** Result types of the example tasks *)

(** The tasks of the example runs return an [int] or nothing. *)
Inductive rty : Type := RInt | RUnit.

#[global] Instance rty_eq_dec : EqDecision rty.
Proof. solve_decision. Defined.

Definition rtyD (t : rty) : Type :=
  match t with
  | RInt => Z
  | RUnit => unit
  end.

(** [[](int x) { return x * x; }] *)
Definition square (x : Z) : outcome (rtyD RInt) := Returned (x * x)%Z.
(** [[] { throw std::runtime_error("boom"); }] *)
Definition boom (_ : unit) : outcome (rtyD RUnit) := Threw (StdException "boom").
(** [[] { throw 42; }] *)
Definition throw_int (_ : unit) : outcome (rtyD RUnit) := Threw (Foreign 42).

Section Pool.

(** The result types of the submitted callables: a code [t : ty] for
    every C++ type [Result], with its values [tyD t]. *)
Context {ty : Type} `{!EqDecision ty} (tyD : ty → Type).

(** ** Task envelopes (namespace [details]) *)

(** The shared state of a [std::packaged_task<Result()>] and its
    [std::future<Result>]: empty until the task has run. *)
Definition shared_state (t : ty) : Type := option (outcome (tyD t)).

(** A cell of the free store: a shared state of some result type. *)
Definition cell : Type := sigT shared_state.

(** [std::packaged_task<Result()> m_task]: the stored closure and the
    address of its shared state. *)
Record packaged_task (t : ty) : Type := PackagedTask {
  pt_fn : unit → outcome (tyD t);
  pt_state : nat
}.
Arguments PackagedTask {t} _ _.
Arguments pt_fn {t} _ _.
Arguments pt_state {t} _.

(** [template <class Result> class Task : public TaskBase], lines 26-57. *)
Record Task (t : ty) : Type := MkTask { m_task : packaged_task t }.
Arguments MkTask {t} _.
Arguments m_task {t} _.

(** [using task_ptr = std::unique_ptr<details::TaskBase>], line 119: the
    result type is hidden behind the base class. *)
Definition task_ptr : Type := sigT Task.

Definition task_ty (tp : task_ptr) : ty := projT1 tp.
Definition task_state (tp : task_ptr) : nat := pt_state (m_task (projT2 tp)).
Definition task_result (tp : task_ptr) : cell :=
  existT (task_ty tp) (Some (pt_fn (m_task (projT2 tp)) tt)).

(** [std::future<Result>]: the caller's end of the shared state. *)
Record future (t : ty) : Type := Future { fut_state : nat }.
Arguments Future {t} _.
Arguments fut_state {t} _.

Definition cast_state {t t' : ty} (e : t = t') (s : shared_state t) : shared_state t' :=
  eq_rect t shared_state s t' e.

(** [future::get()]: [None] while the state is empty (the call would
    block), [Some (Returned v)] returns [v], [Some (Threw e)] rethrows
    [e] in the caller. *)
Definition future_get {t : ty} (fut : future t) (h : list cell) : shared_state t :=
  match h !! fut_state fut with
  | Some c =>
      match decide (projT1 c = t) with
      | left e => cast_state e (projT2 c)
      | right _ => None
      end
  | None => None
  end.

(** The state that the constructor of a [packaged_task<Result()>] allocates. *)
Definition empty_cell (t : ty) : cell := existT t None.

Definition is_empty_state (c : cell) : bool :=
  match projT2 c with
  | None => true
  | Some _ => false
  end.

(** [Task::get_future], lines 46-49. *)
Definition get_future {t : ty} (task : Task t) : future t :=
  Future (pt_state (m_task task)).

(** [Task::run_me], lines 51-54: [m_task()].  [packaged_task::operator()]
    invokes the stored closure and stores what it returns, or the
    exception it throws, in the shared state; nothing the closure throws
    leaves the call.  The call itself throws [std::future_error] when
    the state is already satisfied or missing.  The result is the free
    store after the call and the exception leaving [run_me], if any. *)
Definition run_me (tp : task_ptr) (h : list cell) : list cell * option exn :=
  match h !! task_state tp with
  | Some c =>
      if is_empty_state c
      then (<[task_state tp := task_result tp]> h, None)
      else (h, Some promise_already_satisfied)
  | None => (h, Some no_state)
  end.

(** ** The pool *)

(** Where a worker thread is in [wait_for_work] (lines 127-141) and in
    the [try_pop] it calls (lines 143-157). *)
Inductive wpc : Type :=
| WLoop                  (* line 129, about to test [!m_done] *)
| WLock                  (* line 145, about to lock [m_mutex]; also after a wake-up *)
| WPred                  (* line 146, holds the mutex, about to evaluate the predicate *)
| WBlock                 (* predicate false: about to release the mutex and block *)
| WWait                  (* blocked in [m_condition.wait] *)
| WCheck                 (* line 151, [wait] returned, holds the mutex, about to read [m_done] *)
| WPop                   (* line 154, has read [m_done] unset, holds the mutex *)
| WRun (tp : task_ptr)   (* line 133, [try_pop] returned a task *)
| WCatch                 (* line 135, in the handler, about to lock and print *)
| WStopped.              (* [wait_for_work] returned *)

(** An element of [std::vector<std::thread> m_threads]. *)
Record thread : Type := Thread {
  th_pc : wpc;
  th_joinable : bool
}.

(** Where the owner of the pool is: in the constructor (lines 85-96),
    using the pool, or in [destroy] (lines 167-174). *)
Inductive cpc : Type :=
| CReserve               (* line 88 *)
| CCtor (i : nat)        (* line 89, loop test with counter [i] *)
| CLive                  (* constructed *)
| CNotify                (* line 170 *)
| CJoin (k : nat)        (* line 171, about to visit [m_threads[k]] *)
| CDestroyed             (* [destroy] returned *)
| CCtorFailed (e : exn)  (* the constructor threw [e], no thread exists *)
| CTerminated            (* [std::terminate] was called *)
| CUndefined             (* undefined behaviour: [front()] of an empty queue *)
| CUndefinedUnwind.      (* undefined behaviour: [m_mutex] or [m_condition]
                            destroyed while a worker holds it or waits on it *)

(** What happened, in order. *)
Inductive event : Type :=
| EvSpawn (i : nat)
| EvPush (tp : task_ptr)
| EvPop (w : nat) (tp : task_ptr)
| EvRun (w : nat) (tp : task_ptr)
| EvSetDone
| EvNotifyAll (woken : list nat)
| EvJoin (k : nat).

Record pool : Type := Pool {
  m_done : bool;                 (* std::atomic_bool m_done *)
  m_queue : list task_ptr;       (* std::queue<task_ptr, std::list<task_ptr>> *)
  m_threads : list thread;       (* std::vector<std::thread> *)
  m_condition : list nat;        (* the workers blocked on the condition variable *)
  m_mutex : option nat;          (* the worker that holds the mutex between steps *)
  heap : list cell;              (* the shared states allocated so far *)
  stdout : list string;          (* what [fmt::print] wrote *)
  num_threads : nat;             (* the constructor's argument *)
  ctl : cpc;
  trace : list event
}.

Definition set_done (b : bool) (p : pool) : pool :=
  Pool b (m_queue p) (m_threads p) (m_condition p) (m_mutex p) (heap p)
       (stdout p) (num_threads p) (ctl p) (trace p).
Definition set_queue (q : list task_ptr) (p : pool) : pool :=
  Pool (m_done p) q (m_threads p) (m_condition p) (m_mutex p) (heap p)
       (stdout p) (num_threads p) (ctl p) (trace p).
Definition set_threads (ts : list thread) (p : pool) : pool :=
  Pool (m_done p) (m_queue p) ts (m_condition p) (m_mutex p) (heap p)
       (stdout p) (num_threads p) (ctl p) (trace p).
Definition set_condition (ws : list nat) (p : pool) : pool :=
  Pool (m_done p) (m_queue p) (m_threads p) ws (m_mutex p) (heap p)
       (stdout p) (num_threads p) (ctl p) (trace p).
Definition set_mutex (m : option nat) (p : pool) : pool :=
  Pool (m_done p) (m_queue p) (m_threads p) (m_condition p) m (heap p)
       (stdout p) (num_threads p) (ctl p) (trace p).
Definition set_heap (h : list cell) (p : pool) : pool :=
  Pool (m_done p) (m_queue p) (m_threads p) (m_condition p) (m_mutex p) h
       (stdout p) (num_threads p) (ctl p) (trace p).
Definition print (s : string) (p : pool) : pool :=
  Pool (m_done p) (m_queue p) (m_threads p) (m_condition p) (m_mutex p) (heap p)
       (stdout p ++ [s]) (num_threads p) (ctl p) (trace p).
Definition set_ctl (c : cpc) (p : pool) : pool :=
  Pool (m_done p) (m_queue p) (m_threads p) (m_condition p) (m_mutex p) (heap p)
       (stdout p) (num_threads p) c (trace p).
Definition emit (e : event) (p : pool) : pool :=
  Pool (m_done p) (m_queue p) (m_threads p) (m_condition p) (m_mutex p) (heap p)
       (stdout p) (num_threads p) (ctl p) (trace p ++ [e]).

Definition set_pc (i : nat) (pc : wpc) (p : pool) : pool :=
  match m_threads p !! i with
  | Some th => set_threads (<[i := Thread pc (th_joinable th)]> (m_threads p)) p
  | None => p
  end.

(** The pool before the constructor body runs: [m_done(false)], line 85,
    and the other members default-constructed. *)
Definition init (n : nat) : pool :=
  Pool false [] [] [] None [] [] n CReserve [].

(** ** Code that may throw: state and exceptions

    A computation runs on the pool and returns a value, throws (the
    effects before the throw stay), or cannot proceed now because it
    needs the mutex that a worker holds. *)
Inductive res (A : Type) : Type :=
| Ok (a : A) (p : pool)
| Raise (e : exn) (p : pool)
| Blocked.
Arguments Ok {A} a p.
Arguments Raise {A} e p.
Arguments Blocked {A}.

Definition M (A : Type) : Type := pool → res A.

#[local] Instance M_ret : MRet M := λ A a p, Ok a p.
#[local] Instance M_bind : MBind M := λ A B k c p,
  match c p with
  | Ok a p' => k a p'
  | Raise e p' => Raise e p'
  | Blocked => Blocked
  end.

Definition throw {A : Type} (e : exn) : M A := λ p, Raise e p.

(** [try { c } catch(...) { h }] *)
Definition try_catch {A : Type} (c : M A) (h : exn → M A) : M A := λ p,
  match c p with
  | Raise e p' => h e p'
  | r => r
  end.

Definition gets {A : Type} (f : pool → A) : M A := λ p, Ok (f p) p.
Definition modify (f : pool → pool) : M unit := λ p, Ok tt (f p).

(** A library call that throws when the environment says so. *)
Definition may_throw (flt : option exn) : M unit := λ p,
  match flt with
  | Some e => Raise e p
  | None => Ok tt p
  end.

(** What can go wrong in one [submit]: building the envelope
    ([std::make_unique], the allocation of the shared state, copying the
    callable or the arguments), locking the mutex, and allocating the
    list node in [push]. *)
Record faults : Type := Faults {
  make_task_throws : option exn;
  lock_throws : option exn;
  push_throws : option exn
}.

Definition no_faults : faults := Faults None None None.

(** The allocation of the list node fails. *)
Definition bad_alloc : exn := StdException "std::bad_alloc".
Definition push_fails : faults := Faults None None (Some bad_alloc).

(** [details::make_task], lines 59-65, with the constructor of [Task],
    lines 30-39: the closure captures the callable and the tuple of the
    arguments by value and calls [std::apply(f, args)]; the constructor
    of the [packaged_task] allocates a fresh shared state. *)
Definition make_task {t : ty} {A : Type} (flt : option exn)
    (func : A → outcome (tyD t)) (args : A) : M (Task t) :=
  may_throw flt;;
  state ← gets (λ p, length (heap p));
  modify (λ p, set_heap (heap p ++ [empty_cell t]) p);;
  mret (MkTask (PackagedTask (λ _, func args) state)).

(** [m_mutex.lock()] by a thread that releases it in the same step. *)
Definition acquire : M unit := λ p,
  match m_mutex p with
  | Some _ => Blocked
  | None => Ok tt p
  end.

(** [std::lock_guard<std::mutex> lock(m_mutex)] around [body]: the
    section runs in one step, so the mutex is free again when it ends,
    also when [body] throws. *)
Definition lock_guard {A : Type} (flt : option exn) (body : M A) : M A :=
  may_throw flt;;
  acquire;;
  body.

(** [m_queue.push(std::move(task))]: [std::list::push_back] changes
    nothing when the allocation of the node throws. *)
Definition queue_push (flt : option exn) (tp : task_ptr) : M unit :=
  may_throw flt;;
  modify (λ p, set_queue (m_queue p ++ [tp]) (emit (EvPush tp) p)).

(** [m_condition.notify_one()]: one of the blocked workers, if there is
    one, is no longer blocked; [k] chooses which. *)
Definition notify_one (k : nat) : M unit :=
  modify (λ p, set_condition
                 (delete (k mod length (m_condition p)) (m_condition p)) p).

(** [m_condition.notify_all()] *)
Definition notify_all (p : pool) : pool :=
  set_condition [] (emit (EvNotifyAll (m_condition p)) p).

(** [ThreadPool::add_task], lines 159-165. *)
Definition add_task {t : ty} (flt : faults) (k : nat) (task : Task t) : M unit :=
  lock_guard (lock_throws flt)
    (queue_push (push_throws flt) (existT t task);;
     notify_one k).

(** [ThreadPool::submit], lines 98-111. *)
Definition submit {t : ty} {A : Type} (flt : faults) (k : nat)
    (func : A → outcome (tyD t)) (args : A) : M (future t) :=
  try_catch
    (task ← make_task (make_task_throws flt) func args;
     let task_future := get_future task in
     add_task flt k task;;
     mret task_future)
    (λ _, throw (ThreadPoolException adding_task_failed)).

(** ** The worker: [wait_for_work] and [try_pop] *)

(** The predicate of the wait, lines 146-149. *)
Definition wait_pred (p : pool) : bool :=
  m_done p || negb (bool_decide (m_queue p = [])).

(** The diagnostic of the handler, lines 136-137.  The handler takes the
    exception by value, [catch(std::exception e)], so [e] is a copy of
    the base class alone and [e.what()] is the message of a plain
    [std::exception]. *)
Definition sliced_what : string := "std::exception".
Definition newline : string := String (Ascii.ascii_of_nat 10) EmptyString.
Definition diagnostic : string :=
  "Caught exception from ThreadPool task:" +:+ newline +:+
  "exc.what() = " +:+ sliced_what +:+ newline.

(** One step of [try_pop], lines 143-157, by worker [i] at [pc].
    [m_condition.wait(lock, pred)] is [while (!pred()) wait(lock)]: the
    predicate is evaluated with the mutex held, and [wait] releases the
    mutex and blocks until the worker is notified (or wakes up
    spuriously, see [spurious_wake]), then locks the mutex again.  The
    read of [m_done] at line 151 and the pop of lines 154-155 are two
    steps: the worker holds the mutex, but [destroy] stores the flag
    without it.  [front()] and [pop()] are one step: the queue belongs
    to the holder of the mutex. *)
Definition try_pop (i : nat) (pc : wpc) (p : pool) : option pool :=
  match pc with
  | WLock =>
      match m_mutex p with
      | None => Some (set_pc i WPred (set_mutex (Some i) p))
      | Some _ => None
      end
  | WPred =>
      if wait_pred p then Some (set_pc i WCheck p) else Some (set_pc i WBlock p)
  | WBlock =>
      Some (set_pc i WWait (set_mutex None (set_condition (m_condition p ++ [i]) p)))
  | WWait =>
      if bool_decide (i ∈ m_condition p) then None else Some (set_pc i WLock p)
  | WCheck =>
      if m_done p
      then Some (set_pc i WLoop (set_mutex None p))
      else Some (set_pc i WPop p)
  | WPop =>
      match m_queue p with
      | [] => Some (set_ctl CUndefined p)
      | tp :: q =>
          Some (set_pc i (WRun tp)
                  (set_mutex None (set_queue q (emit (EvPop i tp) p))))
      end
  | _ => None
  end.

(** One step of [wait_for_work], lines 127-141, by worker [i].  An
    exception that leaves the thread function ends the process. *)
Definition wait_for_work (i : nat) (p : pool) : option pool :=
  th ← m_threads p !! i;
  match th_pc th with
  | WLoop =>
      if m_done p then Some (set_pc i WStopped p) else Some (set_pc i WLock p)
  | WRun tp =>
      match run_me tp (heap p) with
      | (h, None) => Some (set_pc i WLoop (set_heap h (emit (EvRun i tp) p)))
      | (h, Some (StdException _)) => Some (set_pc i WCatch (set_heap h p))
      | (h, Some (Foreign _)) => Some (set_ctl CTerminated (set_heap h p))
      end
  | WCatch =>
      match m_mutex p with
      | None => Some (set_pc i WLoop (print diagnostic p))
      | Some _ => None
      end
  | WStopped => None
  | pc => try_pop i pc p
  end.

(** A spurious wake-up of worker [i]: [wait] re-locks the mutex and
    evaluates the predicate again. *)
Definition spurious_wake (i : nat) (p : pool) : option pool :=
  th ← m_threads p !! i;
  match th_pc th with
  | WWait => Some (set_pc i WLock (set_condition (filter (λ j, j ≠ i) (m_condition p)) p))
  | _ => None
  end.

(** ** The owner: constructor and [destroy] *)

(** The handler of the constructor, lines 93-95, and what the throw
    does next.  The handler joins nothing and sets no flag, and the
    destructor is not run for an object whose constructor threw: the
    members are destroyed in the reverse order of their declaration
    (lines 121-125), [m_mutex] first, then [m_condition], then
    [m_threads].  Destroying a mutex that a thread holds, or a condition
    variable on which a thread is blocked, is undefined behaviour;
    [std::thread::~thread] on a joinable thread calls [std::terminate].
    The unwinding is one step of the owner: the model does not follow
    the workers into it (a worker that reaches for a destroyed member
    before the process has ended is undefined behaviour as well), so
    with threads in existence what counts is that the process does not
    survive, see [halted]. *)
Definition ctor_catch (p : pool) : pool :=
  match m_mutex p, m_condition p with
  | None, [] =>
      if existsb th_joinable (m_threads p)
      then set_ctl CTerminated p
      else set_ctl (CCtorFailed (ThreadPoolException constructor_failed)) p
  | _, _ => set_ctl CUndefinedUnwind p
  end.

(** One step of the constructor, lines 87-92; [ok] says whether the
    library call of this step succeeds.  [reserve(0)] allocates
    nothing.  The counter is [unsigned] and stays below [num_threads],
    so it never wraps. *)
Definition ThreadPool_ctor (ok : bool) (p : pool) : option pool :=
  match ctl p with
  | CReserve =>
      if ok || bool_decide (num_threads p = 0)
      then Some (set_ctl (CCtor 0) p)
      else Some (ctor_catch p)
  | CCtor i =>
      if bool_decide (i < num_threads p)
      then if ok
           then Some (set_ctl (CCtor (S i))
                        (set_threads (m_threads p ++ [Thread WLoop true])
                           (emit (EvSpawn i) p)))
           else Some (ctor_catch p)
      else Some (set_ctl CLive p)
  | _ => None
  end.

(** [thread.join()]: waits for the thread to finish. *)
Definition join (k : nat) (th : thread) (p : pool) : option pool :=
  match th_pc th with
  | WStopped => Some (set_threads (<[k := Thread WStopped false]> (m_threads p))
                        (emit (EvJoin k) p))
  | _ => None
  end.

(** One step of [~ThreadPool] (lines 113-116), that is of [destroy],
    lines 167-174. *)
Definition destroy (p : pool) : option pool :=
  match ctl p with
  | CLive => Some (set_ctl CNotify (set_done true (emit EvSetDone p)))
  | CNotify => Some (set_ctl (CJoin 0) (notify_all p))
  | CJoin k =>
      match m_threads p !! k with
      | Some th =>
          if th_joinable th
          then set_ctl (CJoin (S k)) <$> join k th p
          else Some (set_ctl (CJoin (S k)) p)
      | None => Some (set_ctl CDestroyed p)
      end
  | _ => None
  end.

(** ** The transition system *)

Inductive label : Type :=
| LCtor (ok : bool)
| LDestroy
| LSubmit (t : ty) (A : Type) (flt : faults) (k : nat)
          (func : A → outcome (tyD t)) (args : A)
| LWorker (i : nat)
| LSpurious (i : nat).

(** Nothing runs after [std::terminate] or undefined behaviour. *)
Definition halted (p : pool) : bool :=
  match ctl p with
  | CTerminated | CUndefined | CUndefinedUnwind => true
  | _ => false
  end.

(** [submit] can be called once the constructor has returned, until
    [destroy] returns. *)
Definition accepts (p : pool) : bool :=
  match ctl p with
  | CLive | CNotify | CJoin _ => true
  | _ => false
  end.

Definition after {A : Type} (r : res A) : option pool :=
  match r with
  | Ok _ p => Some p
  | Raise _ p => Some p
  | Blocked => None
  end.

Definition step (l : label) (p : pool) : option pool :=
  if halted p then None
  else match l with
       | LCtor ok => ThreadPool_ctor ok p
       | LDestroy => destroy p
       | LSubmit t A flt k func args =>
           if accepts p then after (submit (t:=t) flt k func args p) else None
       | LWorker i => wait_for_work i p
       | LSpurious i => spurious_wake i p
       end.

Fixpoint exec (ls : list label) (p : pool) : option pool :=
  match ls with
  | [] => Some p
  | l :: ls' => p' ← step l p; exec ls' p'
  end.

Definition reachable (n : nat) (p : pool) : Prop :=
  ∃ ls, exec ls (init n) = Some p.

(** ** Reading the history *)

Definition pushes (tr : list event) : list task_ptr :=
  omap (λ e, match e with EvPush tp => Some tp | _ => None end) tr.
Definition pops (tr : list event) : list task_ptr :=
  omap (λ e, match e with EvPop _ tp => Some tp | _ => None end) tr.
Definition runs (tr : list event) : list task_ptr :=
  omap (λ e, match e with EvRun _ tp => Some tp | _ => None end) tr.

(** The actions of [destroy], without their details. *)
Inductive destroy_action : Type :=
| DSetDone
| DNotifyAll
| DJoin (k : nat).

Definition destroy_log (tr : list event) : list destroy_action :=
  omap (λ e, match e with
             | EvSetDone => Some DSetDone
             | EvNotifyAll _ => Some DNotifyAll
             | EvJoin k => Some (DJoin k)
             | _ => None
             end) tr.

(** The program counters at which a worker holds the mutex. *)
Definition holds_mutex (pc : wpc) : bool :=
  match pc with
  | WPred | WBlock | WCheck | WPop => true
  | _ => false
  end.

(** ** Invariants *)

(** The mutex is held by exactly the worker that is inside [try_pop]'s
    locked region, a worker the wait has let through still sees the
    predicate true, and a worker that has read the flag unset after the
    wait finds a task in the queue. *)
Record mutex_inv (p : pool) : Prop := MutexInv {
  mi_holder : ∀ i th, m_threads p !! i = Some th →
    holds_mutex (th_pc th) = true → m_mutex p = Some i;
  mi_owner : ∀ i, m_mutex p = Some i →
    ∃ th, m_threads p !! i = Some th ∧ holds_mutex (th_pc th) = true;
  mi_check : ∀ i th, m_threads p !! i = Some th →
    th_pc th = WCheck → wait_pred p = true;
  mi_pop : ∀ i th, m_threads p !! i = Some th →
    th_pc th = WPop → m_queue p ≠ []
}.

(** The task that [submit] builds in pool [p]. *)
Definition new_task {t : ty} {A : Type} (func : A → outcome (tyD t)) (args : A)
    (p : pool) : task_ptr :=
  existT t (MkTask (PackagedTask (λ _, func args) (length (heap p)))).

(** The pool after a [submit] that succeeds. *)
Definition pushed {t : ty} {A : Type} (k : nat) (func : A → outcome (tyD t))
    (args : A) (p : pool) : pool :=
  set_condition (delete (k mod length (m_condition p)) (m_condition p))
    (set_queue (m_queue p ++ [new_task func args p])
       (emit (EvPush (new_task func args p))
          (set_heap (heap p ++ [empty_cell t]) p))).

(** The owner's program counter determines the shutdown flag, the
    number of threads, which of them were joined, and what [destroy]
    has done so far. *)
Definition joinable_from (k : nat) (ts : list thread) : Prop :=
  ∀ j th, k ≤ j → ts !! j = Some th → th_joinable th = true.
Definition joined_below (k : nat) (ts : list thread) : Prop :=
  ∀ j th, j < k → ts !! j = Some th → th = Thread WStopped false.
Definition destroy_prefix (k : nat) : list destroy_action :=
  DSetDone :: DNotifyAll :: (DJoin <$> seq 0 k).

Definition ctl_inv (p : pool) : Prop :=
  match ctl p with
  | CReserve =>
      m_threads p = [] ∧ m_done p = false ∧ destroy_log (trace p) = []
  | CCtor i =>
      length (m_threads p) = i ∧ i ≤ num_threads p ∧ m_done p = false ∧
      destroy_log (trace p) = [] ∧ joinable_from 0 (m_threads p)
  | CLive =>
      length (m_threads p) = num_threads p ∧ m_done p = false ∧
      destroy_log (trace p) = [] ∧ joinable_from 0 (m_threads p)
  | CNotify =>
      length (m_threads p) = num_threads p ∧ m_done p = true ∧
      destroy_log (trace p) = [DSetDone] ∧ joinable_from 0 (m_threads p)
  | CJoin k =>
      length (m_threads p) = num_threads p ∧ m_done p = true ∧
      k ≤ num_threads p ∧ destroy_log (trace p) = destroy_prefix k ∧
      joined_below k (m_threads p) ∧ joinable_from k (m_threads p)
  | CDestroyed =>
      length (m_threads p) = num_threads p ∧ m_done p = true ∧
      destroy_log (trace p) = destroy_prefix (num_threads p) ∧
      joined_below (num_threads p) (m_threads p)
  | CCtorFailed e =>
      e = ThreadPoolException constructor_failed ∧ m_threads p = [] ∧
      m_done p = false
  | CTerminated | CUndefined | CUndefinedUnwind =>
      length (m_threads p) ≤ num_threads p
  end.

(** The states of the tasks that were run. *)
Definition ran (p : pool) : list nat := task_state <$> runs (trace p).

(** The queue is what was pushed and not yet popped, in order; every
    pushed task has its own shared state, which is empty until the task
    is run and holds the result of its closure afterwards; a task that a
    worker is about to run was popped and has not been run. *)
Record task_inv (p : pool) : Prop := TaskInv {
  ti_fifo : pushes (trace p) = pops (trace p) ++ m_queue p;
  ti_nodup : NoDup (task_state <$> pushes (trace p));
  ti_alloc : ∀ tp, tp ∈ pushes (trace p) → task_state tp < length (heap p);
  ti_runs : ∀ tp, tp ∈ runs (trace p) → tp ∈ pops (trace p);
  ti_pending : ∀ tp, tp ∈ pushes (trace p) → task_state tp ∉ ran p →
    heap p !! task_state tp = Some (empty_cell (task_ty tp));
  ti_ready : ∀ tp, tp ∈ runs (trace p) →
    heap p !! task_state tp = Some (task_result tp);
  ti_held : ∀ i th tp, m_threads p !! i = Some th → th_pc th = WRun tp →
    tp ∈ pops (trace p) ∧ task_state tp ∉ ran p;
  ti_distinct : ∀ i j th th' tp tp',
    m_threads p !! i = Some th → m_threads p !! j = Some th' →
    th_pc th = WRun tp → th_pc th' = WRun tp' →
    task_state tp = task_state tp' → i = j
}.

(** No worker is in the handler, nothing was printed, and the program
    has not run into undefined behaviour. *)
Record quiet_inv (p : pool) : Prop := QuietInv {
  qi_no_catch : ∀ i th, m_threads p !! i = Some th → th_pc th ≠ WCatch;
  qi_stdout : stdout p = [];
  qi_defined : ctl p ≠ CUndefined
}.

(** All of them together. *)
Definition Inv (p : pool) : Prop :=
  mutex_inv p ∧ ctl_inv p ∧ task_inv p ∧ quiet_inv p.

(** Whether the environment makes some library call of a [submit] throw. *)
Definition some_throw (flt : faults) : bool :=
  match flt with
  | Faults None None None => false
  | _ => true
  end.

(** Nothing was printed and no worker is in the handler of
    [wait_for_work]. *)
Definition in_handler (th : thread) : bool :=
  match th_pc th with
  | WCatch => true
  | _ => false
  end.
Definition silent (p : pool) : bool :=
  bool_decide (stdout p = []) && negb (existsb in_handler (m_threads p)).

(** ** More invariants, and what a thread can reach on its own *)

(** The tasks that the workers are about to run. *)
Definition held_tasks (ts : list thread) : list task_ptr :=
  omap (λ th, match th_pc th with WRun tp => Some tp | _ => None end) ts.

(** The entries of the condition variable are different workers, each
    blocked in [wait]; a worker that is about to block has seen the
    queue empty, and it still is; and unless the queue is empty or
    nobody is blocked, the blocked workers and the queued tasks together
    are no more than the workers. *)
Record wake_inv (p : pool) : Prop := WakeInv {
  wi_nodup : NoDup (m_condition p);
  wi_waiting : ∀ i, i ∈ m_condition p →
    ∃ th, m_threads p !! i = Some th ∧ th_pc th = WWait;
  wi_block : ∀ i th, m_threads p !! i = Some th → th_pc th = WBlock →
    m_queue p = [];
  wi_count : m_queue p = [] ∨ m_condition p = [] ∨
    length (m_condition p) + length (m_queue p) ≤ length (m_threads p)
}.

(** The steps of the pool's own threads: of the owner in [destroy] and
    of the workers.  The others are calls of the constructor and of
    [submit], and spurious wake-ups. *)
Definition own_step (l : label) : bool :=
  match l with
  | LDestroy | LWorker _ => true
  | _ => false
  end.

(** Worker [i] returns from [wait_for_work] within [k] steps of its own
    and leaves the mutex free; nothing but its thread, the mutex, the
    history and the shared states changes. *)
Definition stops_within (k i : nat) (p : pool) : Prop :=
  ∃ p' jn, exec (replicate k (LWorker i)) p = Some p' ∧
           m_threads p' = <[i:=Thread WStopped jn]> (m_threads p) ∧
           m_mutex p' = None ∧ m_done p' = m_done p ∧
           m_queue p' = m_queue p ∧ m_condition p' = m_condition p ∧
           ctl p' = ctl p.

(** Worker [i] is blocked in [wait] although the flag is set, and
    [destroy], in its loop of joins, has not got past it. *)
Definition left_behind (i : nat) (p : pool) : Prop :=
  m_done p = true ∧ i ∈ m_condition p ∧
  m_threads p !! i = Some (Thread WWait true) ∧
  ∃ k, ctl p = CJoin k ∧ k ≤ i.

(** Worker [i] takes the head of the queue within [k] steps of its own;
    the other threads, the flag and the owner stay as they are. *)
Definition takes_head (k i : nat) (p : pool) : Prop :=
  ∃ p' tp jn, exec (replicate k (LWorker i)) p = Some p' ∧
              m_queue p = tp :: m_queue p' ∧
              pops (trace p') = pops (trace p) ++ [tp] ∧
              m_threads p' = <[i:=Thread (WRun tp) jn]> (m_threads p) ∧
              m_done p' = m_done p ∧ ctl p' = ctl p.

(** ** Runs of the pool *)

(** The constructor when nothing fails: [reserve], [n] threads, return. *)
Definition construction (n : nat) : list label := replicate (S (S n)) (LCtor true).
(** A worker goes once around its loop: test, lock, predicate, read of
    the flag, pop, run. *)
Definition serving (i : nat) : list label := replicate 6 (LWorker i).
(** The destructor of a pool of one thread, whose worker sees the flag. *)
Definition destruction1 : list label :=
  [LDestroy; LDestroy; LWorker 0; LDestroy; LDestroy].

(** The pool of [n] threads after the steps [ls]. *)
Definition state_after (n : nat) (ls : list label) : pool :=
  default (init n) (exec ls (init n)).

(** A pool of one thread is built, one task is submitted and the worker
    pops and runs it. *)
Definition one_task_run {t : ty} {A : Type} (func : A → outcome (tyD t))
    (args : A) : list label :=
  construction 1 ++ [LSubmit t A no_faults 0 func args] ++ serving 0.

(** The same with a second task submitted before the worker starts. *)
Definition two_pushed_one_run {t1 t2 : ty} {A1 A2 : Type}
    (func1 : A1 → outcome (tyD t1)) (args1 : A1)
    (func2 : A2 → outcome (tyD t2)) (args2 : A2) : list label :=
  construction 1 ++
  [LSubmit t1 A1 no_faults 0 func1 args1; LSubmit t2 A2 no_faults 0 func2 args2] ++
  serving 0.

(** One task is queued; the worker has left the wait, has read the flag
    unset and holds the mutex. *)
Definition about_to_pop {t : ty} {A : Type} (func : A → outcome (tyD t))
    (args : A) : list label :=
  construction 1 ++ [LSubmit t A no_faults 0 func args] ++ replicate 4 (LWorker 0).


(** Both workers of a pool of two block in [wait]; then a task is
    submitted and [notify_one] wakes the first of them. *)
Definition two_blocked_one_woken {t : ty} {A : Type}
    (func : A → outcome (tyD t)) (args : A) : list label :=
  construction 2 ++ replicate 4 (LWorker 0) ++ replicate 4 (LWorker 1) ++
  [LSubmit t A no_faults 0 func args].


(** The worker finds the queue empty and the flag unset; before it
    blocks, the destructor sets the flag and notifies; then the worker
    blocks. *)
Definition lost_wakeup : list label :=
  construction 1 ++ replicate 3 (LWorker 0) ++ [LDestroy; LDestroy; LWorker 0].

(** * Proofs *)

(** Unfolding the updates of the pool, and the cases of a step. *)
Ltac pool_simpl :=
  unfold notify_all in *;
  unfold set_pc, set_done, set_queue, set_threads, set_condition, set_mutex,
    set_heap, set_ctl, emit, print in *;
  cbn [m_done m_queue m_threads m_condition m_mutex heap stdout num_threads
       ctl trace th_pc th_joinable] in *.

Ltac worker_cases H Hth :=
  unfold wait_for_work in H;
  match type of H with
  | context [m_threads ?p !! ?i] =>
      destruct (m_threads p !! i) as [[?pc ?jn]|] eqn:Hth;
      [|discriminate H]
  end;
  cbn [mbind option_bind th_pc th_joinable] in H;
  match type of H with
  | context [match ?pc with WLoop => _ | _ => _ end] => destruct pc
  end;
  cbn [try_pop] in H.

Ltac insert_cases H :=
  apply list_lookup_insert_Some in H as [(? & ? & ?)|(? & ?)]; simplify_eq.

Ltac destroy_cases H :=
  unfold destroy, join in H;
  repeat case_match; cbn [fmap option_fmap option_map] in H;
  simplify_eq; pool_simpl.

(** ** The mutex *)

Lemma mutex_inv_worker i p p' :
  mutex_inv p → wait_for_work i p = Some p' → mutex_inv p'.
Proof.
  intros [Hh Ho Hc Hp] H. worker_cases H Hth.
  all: repeat case_match; simplify_eq; pool_simpl.
  all: try rewrite Hth; pool_simpl.
  all: pose proof (lookup_lt_Some _ _ _ Hth) as Hlt.
  all: pose proof (Hh _ _ Hth) as HhI; cbn in HhI.
  all: split; pool_simpl; unfold wait_pred in *; pool_simpl; eauto.
  all: try (intros j th' Hj Hm; insert_cases Hj; cbn in *; try done;
            try (pose proof (Hh _ _ ltac:(eassumption) ltac:(eassumption)));
            try (pose proof (Hh _ _ ltac:(eassumption) ltac:(by rewrite Hm)));
            try specialize (HhI eq_refl); eauto; congruence).
  all: try (intros j th' Hj Hpc; specialize (Hp _ _ Hj Hpc); congruence).
  all: try (intros j th' Hj Hpc; insert_cases Hj; [|by eauto];
            specialize (Hc _ _ Hth eq_refl);
            repeat match goal with
                   | Hd : m_done _ = false |- _ => rewrite Hd in Hc
                   end;
            cbn in Hc; by case_bool_decide).
  all: intros j Hj; try congruence.
  all: destruct (decide (i = j)); simplify_eq.
  all: try (eexists; split; [apply list_lookup_insert_eq; done|];
            first [done | destruct (Ho _ Hj) as (?&?&?); by simplify_eq]).
  all: rewrite list_lookup_insert_ne by done; try specialize (HhI eq_refl);
       first [by apply Ho | congruence].
Qed.

Lemma mutex_inv_spurious i p p' :
  mutex_inv p → spurious_wake i p = Some p' → mutex_inv p'.
Proof.
  intros [Hh Ho Hc Hp] H. unfold spurious_wake in H.
  destruct (m_threads p !! i) as [[pc jn]|] eqn:Hth; [|done].
  cbn in H. destruct pc; simplify_eq. pool_simpl. rewrite Hth. pool_simpl.
  pose proof (lookup_lt_Some _ _ _ Hth) as Hlt.
  split; pool_simpl; unfold wait_pred in *; pool_simpl.
  - intros j th' Hj Hm. insert_cases Hj; try done; eauto.
  - intros j Hj. destruct (Ho _ Hj) as (th & Hj' & Hm).
    destruct (decide (i = j)); simplify_eq.
    rewrite list_lookup_insert_ne by done. eauto.
  - intros j th' Hj Hm. insert_cases Hj; try done; eauto.
  - intros j th' Hj Hm. insert_cases Hj; try done; eauto.
Qed.

Lemma after_submit {t : ty} {A : Type} flt k (func : A → outcome (tyD t)) args p p' :
  after (submit flt k func args p) = Some p' →
  p' = p ∨ p' = set_heap (heap p ++ [empty_cell t]) p ∨
  (m_mutex p = None ∧ p' = pushed k func args p).
Proof.
  unfold submit, try_catch, make_task, add_task, lock_guard, queue_push,
    notify_one, may_throw, gets, modify, acquire, throw, mbind, M_bind, mret,
    M_ret, after, pushed, new_task.
  destruct flt as [[e1|] [e2|] [e3|]]; cbn;
    destruct (m_mutex p) eqn:?; cbn; intros; simplify_eq; eauto.
Qed.


Lemma mutex_inv_set_ctl c p : mutex_inv p → mutex_inv (set_ctl c p).
Proof. by intros [Hh Ho Hc Hp]. Qed.

Lemma mutex_inv_ctor ok p p' :
  mutex_inv p → ThreadPool_ctor ok p = Some p' → mutex_inv p'.
Proof.
  intros Hinv H. unfold ThreadPool_ctor, ctor_catch in H.
  repeat case_match; simplify_eq; try (by apply mutex_inv_set_ctl).
  destruct Hinv as [Hh Ho Hc Hp].
  split; pool_simpl; unfold wait_pred in *; pool_simpl; eauto.
  all: try (intros j th [[_ ?]|[? ?]]%lookup_snoc_Some Hm; simplify_eq;
            by eauto).
  intros j Hj. destruct (Ho _ Hj) as (th & ? & ?).
  exists th. split; [by apply lookup_app_l_Some|done].
Qed.

Lemma mutex_inv_destroy p p' :
  mutex_inv p → destroy p = Some p' → mutex_inv p'.
Proof.
  intros [Hh Ho Hc Hp] H. destroy_cases H.
  all: split; pool_simpl; unfold wait_pred in *; pool_simpl; eauto.
  - intros j th' Hj Hm. insert_cases Hj; try done; eauto.
  - intros j Hj. destruct (Ho _ Hj) as (th' & Hj' & Hm).
    destruct (decide (k = j)); simplify_eq.
    + match goal with Hpc : th_pc _ = WStopped |- _ => by rewrite Hpc in Hm end.
    + rewrite list_lookup_insert_ne by done. eauto.
  - intros j th' Hj Hm. insert_cases Hj; try done; eauto.
  - intros j th' Hj Hm. insert_cases Hj; try done; eauto.
Qed.

Lemma mutex_inv_submit {t : ty} {A : Type} flt k (func : A → outcome (tyD t)) args p p' :
  mutex_inv p → after (submit flt k func args p) = Some p' → mutex_inv p'.
Proof.
  intros [Hh Ho Hc Hp] [->|[->|[Hm ->]]]%after_submit; [done|..].
  all: split; unfold pushed; pool_simpl; unfold wait_pred in *; pool_simpl; eauto.
  - intros j th Hj Hpc. apply orb_true_iff. right.
    rewrite bool_decide_eq_false_2; [done|]. by destruct (m_queue p).
  - intros j th Hj Hpc. by destruct (m_queue p).
Qed.


(** ** The owner *)

Lemma ctl_inv_bound p : ctl_inv p → length (m_threads p) ≤ num_threads p.
Proof.
  unfold ctl_inv. destruct (ctl p); intros; destruct_and?;
    repeat match goal with H : m_threads _ = [] |- _ => rewrite H end;
    cbn; lia.
Qed.

Lemma pushes_snoc tr e :
  pushes (tr ++ [e]) = pushes tr ++ match e with EvPush tp => [tp] | _ => [] end.
Proof. unfold pushes. rewrite omap_app. by destruct e. Qed.
Lemma pops_snoc tr e :
  pops (tr ++ [e]) = pops tr ++ match e with EvPop _ tp => [tp] | _ => [] end.
Proof. unfold pops. rewrite omap_app. by destruct e. Qed.
Lemma runs_snoc tr e :
  runs (tr ++ [e]) = runs tr ++ match e with EvRun _ tp => [tp] | _ => [] end.
Proof. unfold runs. rewrite omap_app. by destruct e. Qed.
Lemma destroy_log_snoc tr e :
  destroy_log (tr ++ [e]) =
  destroy_log tr ++ match e with
                    | EvSetDone => [DSetDone]
                    | EvNotifyAll _ => [DNotifyAll]
                    | EvJoin k => [DJoin k]
                    | _ => []
                    end.
Proof. unfold destroy_log. rewrite omap_app. by destruct e. Qed.

Lemma joinable_from_insert k i pc th ts :
  ts !! i = Some th → joinable_from k ts →
  joinable_from k (<[i := Thread pc (th_joinable th)]> ts).
Proof.
  intros Hi Hj j th' Hle Hl. insert_cases Hl; cbn; eauto.
Qed.

Lemma joined_below_insert k i pc pc' jn ts :
  ts !! i = Some (Thread pc jn) → pc ≠ WStopped → joined_below k ts →
  joined_below k (<[i := Thread pc' jn]> ts).
Proof.
  intros Hi Hpc Hj.
  assert (¬ i < k) as Hik by (intros Hlt; specialize (Hj _ _ Hlt Hi); congruence).
  intros j th' Hle Hl; insert_cases Hl; eauto; lia.
Qed.

Lemma ctl_inv_worker i p p' :
  ctl_inv p → wait_for_work i p = Some p' → ctl_inv p'.
Proof.
  intros Hi H. pose proof (ctl_inv_bound _ Hi) as Hb. worker_cases H Hth.
  all: repeat case_match; simplify_eq; pool_simpl.
  all: try rewrite Hth; pool_simpl; try done.
  all: unfold ctl_inv in *; pool_simpl;
    rewrite ?destroy_log_snoc, ?app_nil_r, ?length_insert; try exact Hb.
  all: pose proof (joinable_from_insert 0 i) as Hjf0.
  all: destruct (ctl p); try done; destruct_and?; simplify_eq; split_and?; eauto.
  all: try (eapply joinable_from_insert with (th := Thread _ _); by eauto).
  all: try (eapply joined_below_insert; by eauto).
  all: match goal with Hnil : m_threads _ = [] |- _ => by rewrite Hnil in Hth end.
Qed.

Lemma ctl_inv_spurious i p p' :
  ctl_inv p → spurious_wake i p = Some p' → ctl_inv p'.
Proof.
  intros Hi H. unfold spurious_wake in H.
  destruct (m_threads p !! i) as [[pc jn]|] eqn:Hth; [|done].
  cbn in H. destruct pc; simplify_eq. pool_simpl. rewrite Hth. pool_simpl.
  unfold ctl_inv in *; pool_simpl; rewrite ?length_insert.
  destruct (ctl p); try done; destruct_and?; simplify_eq; split_and?; eauto.
  all: try (eapply joinable_from_insert with (th := Thread _ _); by eauto).
  all: try (eapply joined_below_insert; by eauto).
  all: match goal with Hnil : m_threads _ = [] |- _ => by rewrite Hnil in Hth end.
Qed.

Lemma ctl_inv_submit {t : ty} {A : Type} flt k (func : A → outcome (tyD t)) args p p' :
  ctl_inv p → after (submit flt k func args p) = Some p' → ctl_inv p'.
Proof.
  intros Hi [->|[->|[Hm ->]]]%after_submit; [done|..].
  all: unfold ctl_inv, pushed in *; pool_simpl; rewrite ?destroy_log_snoc, ?app_nil_r.
  all: by destruct (ctl p).
Qed.

Lemma ctl_inv_ctor ok p p' :
  ctl_inv p → ThreadPool_ctor ok p = Some p' → ctl_inv p'.
Proof.
  intros Hi H. unfold ThreadPool_ctor, ctor_catch in H.
  repeat case_match; simplify_eq; pool_simpl.
  all: unfold ctl_inv in *; pool_simpl; rewrite ?destroy_log_snoc, ?app_nil_r.
  all: repeat match goal with
         | H : ctl _ = _ |- _ => rewrite H in *
         | H : bool_decide _ = true |- _ => apply bool_decide_eq_true_1 in H
         | H : bool_decide _ = false |- _ => apply bool_decide_eq_false_1 in H
         end.
  all: destruct_and?; split_and?; try done; try lia.
  all: try (match goal with
            | Hnil : m_threads _ = [] |- _ => rewrite Hnil; cbn; done || lia
            end).
  - rewrite length_app. cbn. lia.
  - intros j th _ [[_ ?]|[_ <-]]%lookup_snoc_Some; [|done].
    match goal with Hj : joinable_from 0 _ |- _ => eapply Hj; [|done]; lia end.
  - match goal with Hj : joinable_from 0 _ |- _ => rename Hj into Hjf end.
    destruct (m_threads p) as [|th ts]; [done|].
    match goal with He : existsb _ _ = false |- _ => cbn in He end.
    rewrite (Hjf 0 th) in *; [done|lia|done].
Qed.

Lemma destroy_prefix_S k : destroy_prefix (S k) = destroy_prefix k ++ [DJoin k].
Proof. unfold destroy_prefix. by rewrite seq_S, fmap_app. Qed.

Lemma ctl_inv_destroy p p' :
  ctl_inv p → destroy p = Some p' → ctl_inv p'.
Proof.
  intros Hi H. destroy_cases H.
  all: unfold ctl_inv in *; pool_simpl; rewrite ?destroy_log_snoc, ?app_nil_r.
  all: repeat match goal with
         | H : ctl _ = _ |- _ => rewrite H in *
         end.
  all: destruct_and?.
  all: try match goal with
       | Hj : joinable_from ?k ?ts, Hl : ?ts !! ?k = Some ?th,
         Hf : th_joinable ?th = false |- _ =>
           rewrite (Hj k th) in Hf; [done|lia|done]
       end.
  all: try match goal with
       | Hl : _ !! _ = Some _ |- _ => pose proof (lookup_lt_Some _ _ _ Hl)
       | Hl : _ !! _ = None |- _ => apply lookup_ge_None_1 in Hl
       end.
  all: try match goal with
       | Hk : ?k ≤ num_threads ?q, Hl : length (m_threads ?q) ≤ ?k |- _ =>
           assert (k = num_threads q) as -> by lia
       end.
  all: split_and?; rewrite ?length_insert; try done; try lia.
  all: try (match goal with Hd : destroy_log _ = _ |- _ => rewrite Hd end;
            by rewrite ?destroy_prefix_S).
  - intros j th ?; lia.
  - intros j th' Hlt Hl. insert_cases Hl; [done|].
    match goal with Hjb : joined_below _ _ |- _ => eapply Hjb; [|done]; lia end.
  - intros j th' Hlt Hl. insert_cases Hl; [lia|].
    match goal with Hjf : joinable_from _ _ |- _ => eapply Hjf; [|done]; lia end.
Qed.


(** ** The tasks *)

Lemma popped_pushed p tp :
  task_inv p → tp ∈ pops (trace p) → tp ∈ pushes (trace p).
Proof. intros Hi Hp. rewrite (ti_fifo _ Hi). apply elem_of_app. by left. Qed.

Lemma run_me_held p i th tp :
  task_inv p → m_threads p !! i = Some th → th_pc th = WRun tp →
  run_me tp (heap p) = (<[task_state tp := task_result tp]> (heap p), None).
Proof.
  intros Hi Hth Hpc. destruct (ti_held _ Hi _ _ _ Hth Hpc) as [Hpop Hran].
  unfold run_me.
  by rewrite (ti_pending _ Hi tp (popped_pushed _ _ Hi Hpop) Hran).
Qed.

Lemma NoDup_fmap_middle {X Y : Type} (f : X → Y) l1 x l2 y :
  NoDup (f <$> (l1 ++ x :: l2)) → y ∈ l1 → f y ≠ f x.
Proof.
  rewrite fmap_app, fmap_cons. intros (_ & Hdis & _)%NoDup_app Hy Heq.
  apply (Hdis (f y)); [by apply list_elem_of_fmap_2|].
  rewrite Heq. apply list_elem_of_here.
Qed.

Lemma NoDup_fmap_inj_on {X Y : Type} (f : X → Y) l x y :
  NoDup (f <$> l) → x ∈ l → y ∈ l → f x = f y → x = y.
Proof.
  induction l as [|z l IH]; [by intros _ ?%elem_of_nil|].
  rewrite fmap_cons. intros [Hz Hl]%NoDup_cons Hx Hy Heq.
  apply elem_of_cons in Hx as [->|Hx]; apply elem_of_cons in Hy as [->|Hy]; auto.
  - destruct Hz. rewrite Heq. by apply list_elem_of_fmap_2.
  - destruct Hz. rewrite <-Heq. by apply list_elem_of_fmap_2.
Qed.

Lemma task_inv_worker i p p' :
  task_inv p → wait_for_work i p = Some p' → task_inv p'.
Proof.
  intros Hi H. pose proof Hi as [Hf Hn Ha Hr Hp Hy Hh Hd].
  worker_cases H Hth.
  8: erewrite run_me_held in H by eauto.
  all: repeat case_match; simplify_eq; pool_simpl.
  all: try rewrite Hth; pool_simpl; try done.
  all: pose proof (lookup_lt_Some _ _ _ Hth) as Hlt.
  all: split; unfold ran in *; pool_simpl;
       rewrite ?pushes_snoc, ?pops_snoc, ?runs_snoc, ?app_nil_r; try done.
  all: try (intros j th' tp' Hj Hpc; insert_cases Hj; cbn in *; by eauto).
  all: try (intros j1 j2 th1 th2 tp1 tp2 Hj1 Hj2 Hpc1 Hpc2 Hst;
            insert_cases Hj1; insert_cases Hj2; cbn in *; by eauto).
  all: try match goal with
       | Hq : m_queue _ = _ :: _ |- _ =>
           try rewrite Hq in Hf; pose proof Hn as Hn'; rewrite Hf in Hn'
       end.
  all: try congruence.
  - by rewrite Hf, <-app_assoc.
  - intros tp0 ?. apply elem_of_app. left. by apply Hr.
  - intros j th' tp' Hj Hpc. insert_cases Hj; cbn in *; simplify_eq.
    + split; [apply elem_of_app; right; apply list_elem_of_here|].
      intros (tp0 & Hst & Htp0)%list_elem_of_fmap.
      by eapply (NoDup_fmap_middle task_state); [done|apply Hr|].
    + destruct (Hh _ _ _ ltac:(done) Hpc) as [? ?].
      split; [apply elem_of_app; by left|done].
  - intros j1 j2 th1 th2 tp1 tp2 Hj1 Hj2 Hpc1 Hpc2 Hst.
    insert_cases Hj1; insert_cases Hj2; cbn in *; simplify_eq; eauto.
    + destruct (Hh _ _ _ ltac:(done) Hpc2) as [? ?].
      by edestruct (NoDup_fmap_middle task_state); [done|done|].
    + destruct (Hh _ _ _ ltac:(done) Hpc1) as [? ?].
      by edestruct (NoDup_fmap_middle task_state); [done|done|].
  - intros tp0 ?. rewrite length_insert. by apply Ha.
  - intros tp0 [?|Heq%list_elem_of_singleton]%elem_of_app; [by apply Hr|].
    subst. by eapply Hh.
  - intros tp0 Hpush Hnr. rewrite fmap_app, elem_of_app in Hnr.
    rewrite list_lookup_insert_ne; [apply Hp; tauto|].
    intros Heq. apply Hnr. right. rewrite <-Heq. apply list_elem_of_here.
  - destruct (Hh _ _ _ Hth eq_refl) as [Hpop Hnr].
    intros tp0 [Hin|Heq%list_elem_of_singleton]%elem_of_app; [|subst].
    + rewrite list_lookup_insert_ne; [by apply Hy|].
      intros Heq. apply Hnr. rewrite Heq. by apply list_elem_of_fmap_2.
    + apply list_lookup_insert_eq. apply Ha. by apply popped_pushed.
  - intros j th' tp' Hj Hpc. insert_cases Hj; cbn in *; simplify_eq.
    destruct (Hh _ _ _ ltac:(done) Hpc) as [? Hnr]. split; [done|].
    rewrite fmap_app, elem_of_app. intros [?|Heq%list_elem_of_singleton]; [done|].
    by eapply (Hd j i) in Heq.
Qed.


Lemma task_inv_spurious i p p' :
  task_inv p → spurious_wake i p = Some p' → task_inv p'.
Proof.
  intros [Hf Hn Ha Hr Hp Hy Hh Hd] H. unfold spurious_wake in H.
  destruct (m_threads p !! i) as [[pc jn]|] eqn:Hth; [|done].
  cbn in H. destruct pc; simplify_eq. pool_simpl. rewrite Hth. pool_simpl.
  split; unfold ran in *; pool_simpl; try done.
  - intros j th' tp' Hj Hpc; insert_cases Hj; cbn in *; by eauto.
  - intros j1 j2 th1 th2 tp1 tp2 Hj1 Hj2 Hpc1 Hpc2 Hst;
      insert_cases Hj1; insert_cases Hj2; cbn in *; by eauto.
Qed.

Lemma task_inv_ctor ok p p' :
  task_inv p → ThreadPool_ctor ok p = Some p' → task_inv p'.
Proof.
  intros [Hf Hn Ha Hr Hp Hy Hh Hd] H. unfold ThreadPool_ctor, ctor_catch in H.
  repeat case_match; simplify_eq; pool_simpl.
  all: split; unfold ran in *; pool_simpl;
       rewrite ?pushes_snoc, ?pops_snoc, ?runs_snoc, ?app_nil_r; try done.
  - intros j th tp [[_ ?]|[_ <-]]%lookup_snoc_Some Hpc; by eauto.
  - intros j1 j2 th1 th2 tp1 tp2 [[_ ?]|[_ <-]]%lookup_snoc_Some
      [[_ ?]|[_ <-]]%lookup_snoc_Some Hpc1 Hpc2 Hst; by eauto.
Qed.

Lemma task_inv_destroy p p' :
  task_inv p → destroy p = Some p' → task_inv p'.
Proof.
  intros [Hf Hn Ha Hr Hp Hy Hh Hd] H. destroy_cases H.
  all: split; unfold ran in *; pool_simpl;
       rewrite ?pushes_snoc, ?pops_snoc, ?runs_snoc, ?app_nil_r; try done.
  - intros j th' tp' Hj Hpc; insert_cases Hj; cbn in *; by eauto.
  - intros j1 j2 th1 th2 tp1 tp2 Hj1 Hj2 Hpc1 Hpc2 Hst;
      insert_cases Hj1; insert_cases Hj2; cbn in *; by eauto.
Qed.

Lemma task_inv_submit {t : ty} {A : Type} flt k (func : A → outcome (tyD t)) args p p' :
  task_inv p → after (submit flt k func args p) = Some p' → task_inv p'.
Proof.
  intros Hi [->|[->|[Hm ->]]]%after_submit; [done|..].
  all: destruct Hi as [Hf Hn Ha Hr Hp Hy Hh Hd].
  all: split; unfold pushed, ran in *; pool_simpl;
       rewrite ?pushes_snoc, ?pops_snoc, ?runs_snoc, ?app_nil_r; try done.
  all: assert (∀ tp, tp ∈ runs (trace p) → tp ∈ pushes (trace p)) as Hrp
    by (intros tp ?; rewrite Hf; apply elem_of_app; left; by apply Hr).
  - intros tp ?. rewrite length_app. cbn. pose proof (Ha tp ltac:(done)). lia.
  - intros tp ? ?. rewrite lookup_app_l by eauto. eauto.
  - intros tp ?. rewrite lookup_app_l by eauto. eauto.
  - by rewrite Hf, app_assoc.
  - rewrite fmap_app. apply NoDup_app. split_and!; [done| |apply NoDup_singleton].
    intros st (tp & -> & Htp)%list_elem_of_fmap Hst%list_elem_of_singleton.
    apply Ha in Htp. unfold new_task, task_state in *. cbn in *. lia.
  - intros tp [?|Heq%list_elem_of_singleton]%elem_of_app; rewrite length_app; cbn.
    + pose proof (Ha tp ltac:(done)). lia.
    + subst. unfold new_task, task_state. cbn. lia.
  - intros tp [?|Heq%list_elem_of_singleton]%elem_of_app Hnr.
    + rewrite lookup_app_l by eauto. eauto.
    + subst. unfold new_task, task_state, task_ty. cbn.
      by rewrite list_lookup_middle.
  - intros tp ?. rewrite lookup_app_l by eauto. eauto.
Qed.


(** ** The handler and undefined behaviour *)

Lemma wait_pred_queue p :
  wait_pred p = true → m_done p = false → m_queue p ≠ [].
Proof.
  unfold wait_pred. intros Hw Hd. rewrite Hd in Hw. cbn in Hw.
  by apply negb_true_iff, bool_decide_eq_false_1 in Hw.
Qed.

Lemma quiet_inv_worker i p p' :
  mutex_inv p → task_inv p → quiet_inv p →
  wait_for_work i p = Some p' → quiet_inv p'.
Proof.
  intros Hm Ht [Hc Hs Hu] H. worker_cases H Hth.
  8: erewrite run_me_held in H by eauto.
  all: repeat case_match; simplify_eq; pool_simpl.
  all: try rewrite Hth; pool_simpl; try done.
  all: try (split; pool_simpl; try done;
            intros j th' Hj; insert_cases Hj; cbn; by eauto).
  - by destruct (mi_pop _ Hm _ _ Hth eq_refl).
  - by destruct (Hc _ _ Hth).
Qed.

Lemma quiet_inv_spurious i p p' :
  quiet_inv p → spurious_wake i p = Some p' → quiet_inv p'.
Proof.
  intros [Hc Hs Hu] H. unfold spurious_wake in H.
  destruct (m_threads p !! i) as [[pc jn]|] eqn:Hth; [|done].
  cbn in H. destruct pc; simplify_eq. pool_simpl. rewrite Hth. pool_simpl.
  split; pool_simpl; try done.
  intros j th' Hj; insert_cases Hj; cbn; by eauto.
Qed.

Lemma quiet_inv_ctor ok p p' :
  quiet_inv p → ThreadPool_ctor ok p = Some p' → quiet_inv p'.
Proof.
  intros [Hc Hs Hu] H. unfold ThreadPool_ctor, ctor_catch in H.
  repeat case_match; simplify_eq; pool_simpl.
  all: split; pool_simpl; try done.
  intros j th [[_ ?]|[_ <-]]%lookup_snoc_Some; by eauto.
Qed.

Lemma quiet_inv_destroy p p' :
  quiet_inv p → destroy p = Some p' → quiet_inv p'.
Proof.
  intros [Hc Hs Hu] H. destroy_cases H.
  all: split; pool_simpl; try done.
  intros j th' Hj; insert_cases Hj; cbn; by eauto.
Qed.

Lemma quiet_inv_submit {t : ty} {A : Type} flt k (func : A → outcome (tyD t)) args p p' :
  quiet_inv p → after (submit flt k func args p) = Some p' → quiet_inv p'.
Proof.
  intros Hi [->|[->|[Hm ->]]]%after_submit; [done|..].
  all: destruct Hi as [Hc Hs Hu]; by split.
Qed.

(** ** The invariants hold in every reachable state *)

Lemma Inv_init n : Inv (init n).
Proof.
  split_and!.
  - split; cbn; intros; simplify_eq.
  - by cbn.
  - split; cbn; intros; simplify_eq; try done; try apply NoDup_nil_2;
      by match goal with H : _ ∈ [] |- _ => apply elem_of_nil in H end.
  - by split; cbn; intros; simplify_eq.
Qed.

Lemma Inv_step l p p' : Inv p → step l p = Some p' → Inv p'.
Proof.
  intros (Hm & Hc & Ht & Hq) H. unfold step in H.
  destruct (halted p); [done|].
  destruct l as [ok| |t A flt k func args|i|i].
  - split_and!; eauto using mutex_inv_ctor, ctl_inv_ctor, task_inv_ctor,
      quiet_inv_ctor.
  - split_and!; eauto using mutex_inv_destroy, ctl_inv_destroy,
      task_inv_destroy, quiet_inv_destroy.
  - destruct (accepts p); [|done].
    split_and!; eauto using mutex_inv_submit, ctl_inv_submit, task_inv_submit,
      quiet_inv_submit.
  - split_and!; eauto using mutex_inv_worker, ctl_inv_worker, task_inv_worker,
      quiet_inv_worker.
  - split_and!; eauto using mutex_inv_spurious, ctl_inv_spurious,
      task_inv_spurious, quiet_inv_spurious.
Qed.

Lemma Inv_exec ls p p' : Inv p → exec ls p = Some p' → Inv p'.
Proof.
  revert p. induction ls as [|l ls IH]; intros p Hi H; cbn in H.
  - by simplify_eq.
  - destruct (step l p) as [p1|] eqn:Hs; [|done]. cbn in H.
    eauto using Inv_step.
Qed.

Lemma Inv_reachable n p : reachable n p → Inv p.
Proof. intros [ls H]. eauto using Inv_exec, Inv_init. Qed.


(** ** What every step keeps *)

Ltac step_cases H :=
  unfold step in H;
  match type of H with
  | (if halted ?p then _ else _) = _ =>
      destruct (halted p) eqn:?; [discriminate H|]
  end;
  match type of H with
  | match ?l with LCtor _ => _ | _ => _ end = _ =>
      destruct l as [?ok| |?t ?A ?flt ?k ?func ?args|?i|?i]
  end;
  [ unfold ThreadPool_ctor, ctor_catch in H; repeat case_match; simplify_eq; pool_simpl
  | destroy_cases H
  | destruct (accepts _) eqn:?; [|discriminate H];
    apply after_submit in H as [->|[->|[? ->]]]; unfold pushed; pool_simpl
  | let Hth := fresh "Hth" in
    worker_cases H Hth; repeat case_match; simplify_eq; pool_simpl;
    try rewrite Hth; pool_simpl
  | let Hth := fresh "Hth" in
    unfold spurious_wake in H;
    destruct (m_threads _ !! _) as [[[] ?]|] eqn:Hth;
    cbn [mbind option_bind th_pc th_joinable] in H; simplify_eq;
    pool_simpl; rewrite Hth; pool_simpl ].

Lemma step_frame l p p' :
  step l p = Some p' →
  num_threads p' = num_threads p ∧
  (m_done p = true → m_done p' = true) ∧
  ∃ es, trace p' = trace p ++ es.
Proof.
  intros H. step_cases H.
  all: split_and!; try done.
  all: try (by exists []; rewrite app_nil_r).
  all: by eexists [_].
Qed.

Lemma exec_frame ls p p' :
  exec ls p = Some p' →
  num_threads p' = num_threads p ∧
  (m_done p = true → m_done p' = true) ∧
  ∃ es, trace p' = trace p ++ es.
Proof.
  revert p. induction ls as [|l ls IH]; intros p H; cbn in H.
  - simplify_eq. split_and!; try done. exists []. by rewrite app_nil_r.
  - destruct (step l p) as [p1|] eqn:Hs; [|done]. cbn in H.
    destruct (step_frame _ _ _ Hs) as (Hn & Hd & es1 & Ht).
    destruct (IH _ H) as (Hn' & Hd' & es2 & Ht').
    split_and!; [congruence|tauto|].
    exists (es1 ++ es2). by rewrite Ht', Ht, app_assoc.
Qed.

Lemma exec_app ls1 ls2 p :
  exec (ls1 ++ ls2) p = p1 ← exec ls1 p; exec ls2 p1.
Proof.
  revert p. induction ls1 as [|l ls1 IH]; intros p; cbn; [done|].
  destruct (step l p); cbn; [apply IH|done].
Qed.

Lemma reachable_exec n ls p p' :
  reachable n p → exec ls p = Some p' → reachable n p'.
Proof.
  intros [ls0 H0] H. exists (ls0 ++ ls). by rewrite exec_app, H0.
Qed.

Lemma reachable_num_threads n p : reachable n p → num_threads p = n.
Proof. intros [ls H]. by destruct (exec_frame _ _ _ H) as (-> & _). Qed.

(** ** Reading a future *)

Lemma future_get_lookup {t : ty} (fut : future t) (h : list cell) (s : shared_state t) :
  h !! fut_state fut = Some (existT t s : cell) → future_get fut h = s.
Proof.
  intros Hl. unfold future_get. unfold cell in *. rewrite Hl. cbn.
  destruct (decide (t = t)) as [e|]; [|done].
  by rewrite (proof_irrel e eq_refl).
Qed.

(** A pushed task whose state the future [fut] shares: the future is
    empty until the task is run, and holds what the closure of the task
    produced from then on. *)
Lemma future_of_pushed {t : ty} (task : Task t) (p : pool) :
  task_inv p →
  (existT t task : task_ptr) ∈ pushes (trace p) →
  future_get (get_future task) (heap p) =
    if bool_decide (pt_state (m_task task) ∈ ran p)
    then Some (pt_fn (m_task task) tt)
    else None.
Proof.
  intros Hi Hin. case_bool_decide as Hran.
  - apply list_elem_of_fmap in Hran as (tp & Hst & Hrun).
    assert (tp = existT t task) as ->.
    { eapply (NoDup_fmap_inj_on task_state); [apply (ti_nodup _ Hi)| |done|done].
      by apply popped_pushed, (ti_runs _ Hi). }
    apply future_get_lookup. by apply (ti_ready _ Hi) in Hrun.
  - apply future_get_lookup. by apply (ti_pending _ Hi) in Hin.
Qed.


(** ** The handler of the worker and the failing constructor *)

(** The handler of [wait_for_work] is never entered and nothing is ever
    printed: [run_me] lets no exception out. *)
Lemma handler_never_entered n ls p :
  exec ls (init n) = Some p →
  stdout p = [] ∧ ∀ i th, m_threads p !! i = Some th → th_pc th ≠ WCatch.
Proof.
  intros Hex.
  assert (Inv p) as (_ & _ & _ & [Hq Hs _]) by (eapply Inv_reachable; by eexists).
  by split.
Qed.

(** A constructed pool has exactly [num_threads] threads, none joined,
    and its flag is not set. *)
Lemma constructed_thread_count n ls p :
  exec ls (init n) = Some p → ctl p = CLive →
  length (m_threads p) = n ∧ m_done p = false ∧
  ∀ th, th ∈ m_threads p → th_joinable th = true.
Proof.
  intros Hex Hl.
  assert (reachable n p) as Hr by by eexists.
  pose proof (reachable_num_threads _ _ Hr) as Hn.
  assert (Inv p) as (_ & Hc & _) by by apply (Inv_reachable n).
  unfold ctl_inv in Hc. rewrite Hl in Hc.
  destruct Hc as (Hlen & Hd & _ & Hj). split_and!; [congruence|done|].
  intros th (j & Hth)%list_elem_of_lookup. eapply Hj; [|done]. lia.
Qed.

(** When the creation of a thread fails after at least one thread was
    created, the handler of the constructor joins nothing: the flag
    stays false, the threads stay as they are, and the process does not
    survive the destruction of the members.  If no worker holds the
    mutex or is blocked in the wait, destroying the vector of joinable
    threads calls [std::terminate]; otherwise a mutex or a condition
    variable in use is destroyed before that. *)
Lemma ctor_failure_terminates n ls p i :
  exec ls (init n) = Some p → ctl p = CCtor i → 0 < i < n →
  ∃ p', step (LCtor false) p = Some p' ∧ halted p' = true ∧
        (m_mutex p = None → m_condition p = [] → ctl p' = CTerminated) ∧
        (m_mutex p ≠ None ∨ m_condition p ≠ [] → ctl p' = CUndefinedUnwind) ∧
        m_done p' = false ∧ m_threads p' = m_threads p ∧
        length (m_threads p') = i ∧
        destroy_log (trace p') = [] ∧
        ∀ th, th ∈ m_threads p' → th_joinable th = true.
Proof.
  intros Hex Hl Hi.
  assert (reachable n p) as Hr by by eexists.
  pose proof (reachable_num_threads _ _ Hr) as Hn.
  assert (Inv p) as (_ & Hc & _) by by apply (Inv_reachable n).
  unfold ctl_inv in Hc. rewrite Hl in Hc.
  destruct Hc as (Hlen & _ & Hd & Hlog & Hj).
  assert (existsb th_joinable (m_threads p) = true) as Hex'.
  { destruct (m_threads p) as [|th ts] eqn:Hts; [cbn in Hlen; lia|].
    cbn. rewrite (Hj 0 th); [done|lia|done]. }
  assert (∀ th, th ∈ m_threads p → th_joinable th = true) as Hall.
  { intros th (j & Hth)%list_elem_of_lookup. eapply Hj; [|done]. lia. }
  exists (ctor_catch p). split.
  { unfold step, halted, ThreadPool_ctor. rewrite Hl.
    by rewrite bool_decide_eq_true_2 by lia. }
  unfold ctor_catch, halted. rewrite Hex'.
  destruct (m_mutex p) as [j|], (m_condition p) as [|w ws]; cbn;
    split_and!; try done; try (by intros [?|?]); by intros _ ?.
Qed.

(** ** The condition variable *)

Lemma blocked_bound (ws : list nat) (n : nat) :
  NoDup ws → (∀ i, i ∈ ws → i < n) → length ws ≤ n.
Proof.
  intros Hnd Hlt. assert (ws ⊆+ seq 0 n) as Hs.
  { apply NoDup_submseteq; [done|].
    intros i Hi. apply elem_of_seq. specialize (Hlt i Hi). lia. }
  apply submseteq_length in Hs. by rewrite length_seq in Hs.
Qed.

Lemma wake_inv_blocked p : wake_inv p → length (m_condition p) ≤ length (m_threads p).
Proof.
  intros [Hnd Hw _ _]. apply blocked_bound; [done|].
  intros i (th & Hi & _)%Hw. by eapply lookup_lt_Some.
Qed.

Lemma wake_inv_init n : wake_inv (init n).
Proof.
  split; cbn; [constructor| | |by left].
  - by intros i ?%elem_of_nil.
  - intros i th Hi. by rewrite lookup_nil in Hi.
Qed.

Lemma waiting_insert (ws : list nat) (ts : list thread) i th' :
  (∀ j, j ∈ ws → ∃ th, ts !! j = Some th ∧ th_pc th = WWait) →
  i ∉ ws →
  ∀ j, j ∈ ws → ∃ th, <[i:=th']> ts !! j = Some th ∧ th_pc th = WWait.
Proof.
  intros Hw Hi j Hj. destruct (Hw j Hj) as (th & Hth & Hpc).
  exists th. split; [|done]. rewrite list_lookup_insert_ne; [done|].
  by intros ->.
Qed.

Lemma notify_one_count {X : Type} (ws : list nat) (k n : nat) (q : list X) x :
  length ws ≤ n →
  q = [] ∨ ws = [] ∨ length ws + length q ≤ n →
  q ++ [x] = [] ∨ delete (k mod length ws) ws = [] ∨
  length (delete (k mod length ws) ws) + length (q ++ [x]) ≤ n.
Proof.
  intros Hb Hc. right. destruct ws as [|w ws]; [by left|]. right.
  rewrite length_app, length_delete.
  - cbn [length] in *. destruct Hc as [->|[?|?]]; [cbn; lia|done|lia].
  - apply lookup_lt_is_Some. apply Nat.mod_upper_bound. done.
Qed.

Ltac not_waiting Hwt :=
  let Hin := fresh in
  intros Hin; destruct (Hwt _ Hin) as (? & ? & ?); simplify_eq/=;
  try congruence.

Lemma wake_inv_step l p p' :
  Inv p → wake_inv p → step l p = Some p' → wake_inv p'.
Proof.
  intros ([Hh Ho Hck Hpop] & Hc & _) Hw H.
  pose proof (wake_inv_blocked _ Hw) as Hb.
  pose proof Hw as Hw0.
  destruct Hw as [Hnd Hwt Hbl Hcnt].
  step_cases H.
  all: split; pool_simpl; try done.
  all: try (apply waiting_insert; [done|];
            first [by case_bool_decide | by not_waiting Hwt]).
  all: try (rewrite length_insert; done).
  all: try (intros j th' Hj Hpc; insert_cases Hj; cbn in Hpc;
            first [discriminate Hpc | by eauto]).
  (* a thread is added *)
  all: try (intros j Hj; destruct (Hwt j Hj) as (th & ? & ?); exists th;
            split; [by apply lookup_app_l_Some|done]).
  all: try (intros j th Hj Hpc;
            apply lookup_snoc_Some in Hj as [[_ ?]|[_ <-]]; [by eauto|done]).
  all: try (rewrite length_app; cbn; destruct Hcnt as [?|[?|?]];
            [by left|by right; left|right; right; lia]).
  (* [notify_all] *)
  all: try apply NoDup_nil_2.
  all: try (by intros ? ?%elem_of_nil).
  all: try (by right; left).
  all: try (by left).
  (* [add_task] *)
  all: try (eapply sublist_NoDup; [done|apply sublist_delete]).
  all: try (by intros j Hj%list_elem_of_delete_inv; eauto).
  all: try (intros j th Hj Hpc; pose proof (Hh _ _ Hj) as Hm;
            rewrite Hpc in Hm; specialize (Hm eq_refl); congruence).
  all: try (by apply notify_one_count).
  (* the predicate was false *)
  all: try (intros j th' Hj Hpc; insert_cases Hj; [|by eauto];
            unfold wait_pred in *; destruct (m_done p); [done|];
            by case_bool_decide).
  (* the worker blocks *)
  all: try (apply NoDup_app; split_and!; [done| |apply NoDup_singleton];
            intros j Hj ->%list_elem_of_singleton; revert Hj;
            by not_waiting Hwt).
  all: try (intros j [Hj| ->%list_elem_of_singleton]%elem_of_app;
            [apply (waiting_insert (m_condition p)); [done| |done];
             by not_waiting Hwt|];
            eexists; split;
            [apply list_lookup_insert_eq; by eapply lookup_lt_Some|done]).
  all: try (left; by eapply (Hbl i)).
  (* the head of the queue is taken *)
  all: try (intros j th' Hj Hpc; insert_cases Hj; cbn in Hpc; try done;
            match goal with
            | Hl : m_threads _ !! j = Some th' |- _ =>
                specialize (Hbl _ _ Hl Hpc); congruence
            end).
  all: try (rewrite length_insert;
            try match goal with
                | Hq : m_queue _ = _ :: _ |- _ => rewrite Hq in Hcnt
                end;
            destruct Hcnt as [?|[?|?]];
            [done|by right; left|right; right; cbn in *; lia]).
  (* a spurious wake-up *)
  all: try (by apply NoDup_filter).
  all: try (intros j [Hne Hj]%list_elem_of_filter;
            destruct (Hwt j Hj) as (th' & ? & ?); exists th';
            by rewrite list_lookup_insert_ne).
  all: try (rewrite length_insert;
            pose proof (length_filter (λ j, j ≠ i) (m_condition p));
            destruct Hcnt as [?|[Hc0|?]];
            [by left|right; left; by rewrite Hc0|right; right; lia]).
  (* the unwinding of the constructor *)
  all: first [apply (wi_nodup _ Hw0) | apply (wi_waiting _ Hw0) |
              apply (wi_count _ Hw0)].
Qed.

Lemma wake_inv_exec ls p p' :
  Inv p → wake_inv p → exec ls p = Some p' → wake_inv p'.
Proof.
  revert p. induction ls as [|l ls IH]; intros p Hi Hw H; cbn in H.
  - by simplify_eq.
  - destruct (step l p) as [p1|] eqn:Hst; [|done]. cbn in H.
    eapply IH; [by eapply Inv_step|by eapply wake_inv_step|done].
Qed.

Lemma wake_inv_reachable n p : reachable n p → wake_inv p.
Proof.
  intros [ls H]. eapply wake_inv_exec; [apply Inv_init|apply wake_inv_init|done].
Qed.

Lemma NoDup_delete_lookup {X : Type} (l : list X) j x :
  NoDup l → l !! j = Some x → x ∉ delete j l.
Proof.
  intros Hnd. revert j. induction Hnd as [|a l Ha Hnd IH]; intros j Hj.
  - by rewrite lookup_nil in Hj.
  - destruct j as [|j]; cbn in *.
    + by simplify_eq.
    + intros [->|Hin]%elem_of_cons.
      * by apply Ha, (list_elem_of_lookup_2 _ j).
      * by apply (IH j).
Qed.

(** * The claims *)

(** ** The task queue *)

(** C1. In every state the pool can reach, the tasks pushed so far are
    the tasks popped so far followed by the queue, in the same order
    (extraction order is insertion order); no task was popped twice
    (the popped tasks have pairwise different shared states); and a step
    either pops nothing and does not shorten the queue, or pops exactly
    the head of the queue, which gets shorter by exactly one. *)
Theorem C1_queue_is_fifo (n : nat) (ls : list label) (p : pool) :
  exec ls (init n) = Some p →
  pushes (trace p) = pops (trace p) ++ m_queue p ∧
  NoDup (task_state <$> pops (trace p)) ∧
  ∀ l p', step l p = Some p' →
    (pops (trace p') = pops (trace p) ∧
     length (m_queue p) ≤ length (m_queue p')) ∨
    (∃ tp, pops (trace p') = pops (trace p) ++ [tp] ∧
           m_queue p = tp :: m_queue p' ∧
           length (m_queue p') + 1 = length (m_queue p)).
Proof.
  intros Hex.
  assert (Inv p) as (_ & _ & Ht & _) by (eapply Inv_reachable; by eexists).
  split_and!.
  - apply (ti_fifo _ Ht).
  - pose proof (ti_nodup _ Ht) as Hn.
    rewrite (ti_fifo _ Ht), fmap_app in Hn. by apply NoDup_app in Hn as [? _].
  - intros l p' H. step_cases H.
    all: rewrite ?pops_snoc, ?app_nil_r.
    all: try (left; split; [done|]; rewrite ?length_app; cbn; lia).
    all: try match goal with
         | Hq : m_queue _ = _ :: _ |- _ =>
             try rewrite Hq; right; eexists; split_and!; [done|done|cbn; lia]
         end.
Qed.

(** ** The shutdown flag *)

(** C7. The shutdown flag is false in the pool the constructor starts
    from and still false when the constructor has returned; and no step
    of any thread resets it: once it is true it is true in every later
    state. *)
Theorem C7_done_never_reverts (n : nat) (ls0 ls : list label) (p0 p p' : pool) :
  m_done (init n) = false ∧
  (exec ls0 (init n) = Some p0 → ctl p0 = CLive → m_done p0 = false) ∧
  (exec ls p = Some p' → m_done p = true → m_done p' = true).
Proof.
  split_and!; [done| |].
  - intros H0 Hl. by destruct (constructed_thread_count _ _ _ H0 Hl) as (_ & ? & _).
  - intros H. by destruct (exec_frame _ _ _ H) as (_ & ? & _).
Qed.

(** ** Submission and results *)

Lemma submit_Ok {t : ty} {A : Type} flt k (func : A → outcome (tyD t)) args p fut p1 :
  submit flt k func args p = Ok fut p1 →
  flt = no_faults ∧ m_mutex p = None ∧
  fut = Future (length (heap p)) ∧ p1 = pushed k func args p.
Proof.
  unfold submit, try_catch, make_task, add_task, lock_guard, queue_push,
    notify_one, may_throw, gets, modify, acquire, throw, mbind, M_bind, mret,
    M_ret, pushed, new_task, get_future.
  destruct flt as [[e1|] [e2|] [e3|]]; cbn;
    destruct (m_mutex p) eqn:?; cbn; intros; by simplify_eq.
Qed.

(** A future handed out by [submit] is empty until a worker has run its
    task, and holds the callable applied to the arguments of the call
    from then on. *)
Lemma submitted_future {t : ty} {A : Type} n flt k (func : A → outcome (tyD t))
    args ls0 p fut p1 ls1 p2 :
  exec ls0 (init n) = Some p →
  submit flt k func args p = Ok fut p1 →
  exec ls1 p1 = Some p2 →
  future_get fut (heap p2) =
    if bool_decide (fut_state fut ∈ ran p2) then Some (func args) else None.
Proof.
  intros H0 (-> & Hm & -> & ->)%submit_Ok H1.
  assert (Inv p) as Hi by (eapply Inv_reachable; by eexists).
  assert (Inv (pushed k func args p)) as Hi1.
  { destruct Hi as (? & ? & ? & ?).
    assert (after (submit no_faults k func args p) = Some (pushed k func args p)) as Ha.
    { unfold submit, try_catch, make_task, add_task, lock_guard, queue_push,
        notify_one, may_throw, gets, modify, acquire, throw, mbind, M_bind,
        mret, M_ret, after. cbn. by rewrite Hm. }
    split_and!; eauto using mutex_inv_submit, ctl_inv_submit, task_inv_submit,
      quiet_inv_submit. }
  assert (Inv p2) as (_ & _ & Ht2 & _) by eauto using Inv_exec.
  destruct (exec_frame _ _ _ H1) as (_ & _ & es & Htr).
  set (task := MkTask (PackagedTask (λ _, func args) (length (heap p)))).
  apply (future_of_pushed task p2 Ht2).
  rewrite Htr. unfold pushes. rewrite omap_app. apply elem_of_app. left.
  unfold pushed. pool_simpl. fold (pushes (trace p ++ [EvPush (new_task func args p)])).
  rewrite pushes_snoc. apply elem_of_app. right. apply list_elem_of_here.
Qed.


(** ** Failures of tasks *)

Lemma wait_for_work_keeps_ctl i p p' :
  Inv p → wait_for_work i p = Some p' →
  ctl p' = ctl p ∧ stdout p' = stdout p ∧
  (th_pc <$> m_threads p' !! i = Some WStopped → m_done p = true).
Proof.
  intros (Hm & Hc & Ht & [Hq Hs Hu]) H. worker_cases H Hth.
  8: erewrite run_me_held in H by eauto.
  all: repeat case_match; simplify_eq; pool_simpl.
  all: try rewrite Hth; pool_simpl.
  all: pose proof (lookup_lt_Some _ _ _ Hth) as Hlt.
  all: rewrite ?list_lookup_insert_eq by done; cbn.
  all: try (split_and!; done).
  - by destruct (mi_pop _ Hm _ _ Hth eq_refl).
  - by destruct (Hq _ _ Hth).
Qed.

(** C9. In every reachable state, when a worker is about to run a task,
    [run_me] stores what the callable did in the shared state of the
    task and lets no exception out, whatever the callable returned or
    threw; the worker goes back to the head of its loop.  No step of a
    worker ends the process, and a worker stops only when the shutdown
    flag is set.  A failure [e] of the callable is what reading the
    future gives once the task was run. *)
Theorem C9_failures_stay_in_the_future (n : nat) (ls : list label) (p : pool) :
  exec ls (init n) = Some p →
  (∀ i th tp, m_threads p !! i = Some th → th_pc th = WRun tp →
     run_me tp (heap p) = (<[task_state tp := task_result tp]> (heap p), None) ∧
     ∃ p', wait_for_work i p = Some p' ∧
           th_pc <$> m_threads p' !! i = Some WLoop ∧
           heap p' !! task_state tp = Some (task_result tp)) ∧
  (∀ i p', wait_for_work i p = Some p' →
     ctl p' = ctl p ∧
     (th_pc <$> m_threads p' !! i = Some WStopped → m_done p = true)) ∧
  (∀ (t : ty) (A : Type) (func : A → outcome (tyD t)) (args : A) flt k fut p1
     ls1 p2 e,
     submit flt k func args p = Ok fut p1 → exec ls1 p1 = Some p2 →
     func args = Threw e → fut_state fut ∈ ran p2 →
     future_get fut (heap p2) = Some (Threw e)).
Proof.
  intros Hex.
  assert (Inv p) as Hi by (eapply Inv_reachable; by eexists).
  split_and!.
  - intros i th tp Hth Hpc. destruct Hi as (_ & _ & Ht & _).
    pose proof (run_me_held _ _ _ _ Ht Hth Hpc) as Hrun. split; [done|].
    destruct (ti_held _ Ht _ _ _ Hth Hpc) as [Hpop _].
    pose proof (ti_alloc _ Ht _ (popped_pushed _ _ Ht Hpop)) as Hlt.
    pose proof (lookup_lt_Some _ _ _ Hth) as Hlt'.
    destruct th as [pc jn]. cbn in Hpc. subst pc.
    unfold wait_for_work. rewrite Hth. cbn [mbind option_bind th_pc].
    rewrite Hrun. eexists. split; [done|]. pool_simpl. rewrite Hth. pool_simpl.
    rewrite !list_lookup_insert_eq by done. done.
  - intros i p' H. by destruct (wait_for_work_keeps_ctl _ _ _ Hi H) as (? & _ & ?).
  - intros t A func args flt k fut p1 ls1 p2 e Hs H1 He Hran.
    rewrite (submitted_future _ _ _ _ _ _ _ _ _ _ _ Hex Hs H1).
    by rewrite bool_decide_eq_true_2, He.
Qed.


(** ** Waiting for work *)








(** ** Failed submissions *)

(** C6. When building the envelope, locking the mutex or pushing throws,
    whatever is thrown, [submit] throws the exception with the message
    [adding_task_failed]; the queue, the history of pushes, the mutex,
    the flag, the threads and the waiting workers are as before the
    call.  A later [submit] in which nothing throws succeeds and appends
    its envelope to the queue.  (A call that finds the mutex taken waits
    for it.) *)
Theorem C6_failed_submit_changes_nothing {t : ty} {A : Type} (flt : faults)
    (k : nat) (func : A → outcome (tyD t)) (args : A) (p : pool) :
  some_throw flt = true →
  match submit flt k func args p with
  | Ok _ _ => False
  | Blocked => m_mutex p ≠ None
  | Raise e p' =>
      e = ThreadPoolException adding_task_failed ∧
      m_queue p' = m_queue p ∧ pushes (trace p') = pushes (trace p) ∧
      m_mutex p' = m_mutex p ∧ m_done p' = m_done p ∧
      m_threads p' = m_threads p ∧ m_condition p' = m_condition p ∧
      ctl p' = ctl p ∧
      (m_mutex p = None →
       ∀ (t' : ty) (A' : Type) (func' : A' → outcome (tyD t')) (args' : A') k',
       ∃ fut p'', submit no_faults k' func' args' p' = Ok fut p'' ∧
                  m_queue p'' = m_queue p ++ [new_task func' args' p'])
  end.
Proof.
  unfold submit, try_catch, make_task, add_task, lock_guard, queue_push,
    notify_one, may_throw, gets, modify, acquire, throw, mbind, M_bind, mret,
    M_ret, new_task, get_future.
  destruct flt as [[e1|] [e2|] [e3|]]; cbn; intros Hf; try done;
    destruct (m_mutex p) eqn:Hm; cbn; try done.
  all: split_and!; try done.
  all: intros _ t' A' func' args' k'; rewrite ?Hm; cbn; by eauto.
Qed.

(** ** Destruction *)

(** C8. The destructor sets the shutdown flag, then notifies all waiting
    workers (no worker is left on the condition variable), then visits
    the threads in order: each is joinable, its join waits until the
    thread has stopped and then takes place, and after the last thread
    [destroy] returns.  When the destructor has returned, its actions
    were these, in this order, and every thread of the pool has stopped
    and was joined. *)
Theorem C8_destroy_order (n : nat) (ls : list label) (p : pool) :
  exec ls (init n) = Some p →
  (ctl p = CLive → destroy_log (trace p) = [] ∧
     ∃ p', destroy p = Some p' ∧ m_done p' = true ∧ ctl p' = CNotify) ∧
  (ctl p = CNotify → m_done p = true ∧ destroy_log (trace p) = [DSetDone] ∧
     ∃ p', destroy p = Some p' ∧ m_condition p' = [] ∧ ctl p' = CJoin 0) ∧
  (∀ k, ctl p = CJoin k →
     destroy_log (trace p) = DSetDone :: DNotifyAll :: (DJoin <$> seq 0 k) ∧
     match m_threads p !! k with
     | Some th =>
         th_joinable th = true ∧
         (th_pc th ≠ WStopped → destroy p = None) ∧
         (th_pc th = WStopped →
          ∃ p', destroy p = Some p' ∧ ctl p' = CJoin (S k) ∧
                m_threads p' !! k = Some (Thread WStopped false))
     | None => k = n ∧ ∃ p', destroy p = Some p' ∧ ctl p' = CDestroyed
     end) ∧
  (ctl p = CDestroyed →
     destroy_log (trace p) = DSetDone :: DNotifyAll :: (DJoin <$> seq 0 n) ∧
     length (m_threads p) = n ∧
     ∀ th, th ∈ m_threads p → th = Thread WStopped false).
Proof.
  intros Hex.
  assert (reachable n p) as Hr by by eexists.
  pose proof (reachable_num_threads _ _ Hr) as Hn.
  assert (Inv p) as (_ & Hc & _) by by apply (Inv_reachable n).
  unfold ctl_inv in Hc. split_and!.
  - intros Hl. rewrite Hl in Hc. destruct Hc as (_ & _ & ? & _).
    split; [done|]. unfold destroy. rewrite Hl. by eexists.
  - intros Hl. rewrite Hl in Hc. destruct Hc as (_ & ? & ? & _).
    split_and!; [done..|]. unfold destroy. rewrite Hl. by eexists.
  - intros k Hl. rewrite Hl in Hc.
    destruct Hc as (Hlen & _ & Hk & ? & _ & Hj). split; [done|].
    unfold destroy. rewrite Hl.
    destruct (m_threads p !! k) as [th|] eqn:Hth.
    + rewrite (Hj k th) by done. split_and!; [done| |].
      * intros Hpc. unfold join. by destruct (th_pc th).
      * intros Hpc. unfold join. rewrite Hpc. cbn. eexists. split; [done|].
        pool_simpl. split; [done|]. apply list_lookup_insert_eq.
        by eapply lookup_lt_Some.
    + apply lookup_ge_None_1 in Hth. split; [lia|]. by eexists.
  - intros Hl. rewrite Hl in Hc. destruct Hc as (? & _ & ? & Hj).
    rewrite <-Hn. split_and!; [done..|].
    intros th (j & Hth)%list_elem_of_lookup. eapply Hj; [|done].
    apply lookup_lt_Some in Hth. lia.
Qed.

(** ** A pool without threads *)

Lemma zero_step l p p' :
  num_threads p = 0 → m_threads p = [] →
  step l p = Some p' →
  m_threads p' = [] ∧ m_mutex p' = m_mutex p ∧
  pops (trace p') = pops (trace p) ∧ runs (trace p') = runs (trace p).
Proof.
  intros Hn Hnil H. step_cases H.
  all: rewrite ?pops_snoc, ?runs_snoc, ?app_nil_r.
  all: try (by rewrite Hnil in Hth).
  all: try done.
  - match goal with Hb : bool_decide _ = true |- _ =>
      apply bool_decide_eq_true_1 in Hb; lia end.
  - match goal with Hl : m_threads _ !! _ = Some _ |- _ => by rewrite Hnil in Hl end.
Qed.

Lemma zero_exec ls p p' :
  num_threads p = 0 → m_threads p = [] →
  exec ls p = Some p' →
  m_threads p' = [] ∧ m_mutex p' = m_mutex p ∧
  pops (trace p') = pops (trace p) ∧ runs (trace p') = runs (trace p).
Proof.
  revert p. induction ls as [|l ls IH]; intros p Hn Hnil H; cbn in H.
  - by simplify_eq.
  - destruct (step l p) as [p1|] eqn:Hs; [|done]. cbn in H.
    destruct (zero_step _ _ _ Hn Hnil Hs) as (? & ? & ? & ?).
    destruct (step_frame _ _ _ Hs) as (Hn1 & _).
    destruct (IH p1) as (? & ? & ? & ?); [congruence|done|done|].
    split_and!; congruence.
Qed.

(** C10. The constructor of a pool of zero threads succeeds, whatever
    the environment does, and creates no thread.  In every state such a
    pool reaches there is no thread, no task was popped or run: the
    queue holds every task pushed and their futures are empty.  On the
    constructed pool [submit] returns the future of the envelope that it
    appends to the queue: a future of the callable's result type on the
    shared state of that envelope, which is allocated, empty and shared
    with no envelope queued before; in every later state of the pool
    that state is still allocated and empty, so the future is valid and
    never ready.  The three steps of the destructor run one after the
    other without waiting for anything. *)
Theorem C10_zero_threads (ok1 ok2 : bool) (ls : list label) (p : pool) :
  (∃ p0, exec [LCtor ok1; LCtor ok2] (init 0) = Some p0 ∧
         ctl p0 = CLive ∧ m_threads p0 = []) ∧
  (exec ls (init 0) = Some p →
   m_threads p = [] ∧ pops (trace p) = [] ∧ runs (trace p) = [] ∧
   m_queue p = pushes (trace p) ∧
   (∀ tp, tp ∈ pushes (trace p) →
      heap p !! task_state tp = Some (empty_cell (task_ty tp))) ∧
   (ctl p = CLive →
      (∀ (t : ty) (A : Type) (func : A → outcome (tyD t)) (args : A) k,
         ∃ (fut : future t) p' (task : Task t),
           submit no_faults k func args p = Ok fut p' ∧
           step (LSubmit t A no_faults k func args) p = Some p' ∧
           new_task func args p = existT t task ∧
           fut = get_future task ∧
           pt_fn (m_task task) tt = func args ∧
           m_queue p' = m_queue p ++ [new_task func args p] ∧
           future_get fut (heap p') = None ∧
           heap p' !! fut_state fut = Some (empty_cell t) ∧
           (∀ tp, tp ∈ m_queue p → task_state tp ≠ fut_state fut) ∧
           ∀ ls' p'', exec ls' p' = Some p'' →
             existT t task ∈ m_queue p'' ∧
             heap p'' !! fut_state fut = Some (empty_cell t) ∧
             future_get fut (heap p'') = None) ∧
      (∃ p', exec [LDestroy; LDestroy; LDestroy] p = Some p' ∧
             ctl p' = CDestroyed))).
Proof.
  split.
  - destruct ok1, ok2; by eexists.
  - intros Hex.
    assert (Inv p) as Hinv by (eapply Inv_reachable; by eexists).
    pose proof Hinv as (_ & Hc & Ht & _).
    destruct (zero_exec ls (init 0) p eq_refl eq_refl Hex) as (Hnil & Hm & Hp & Hr).
    cbn in Hm, Hp, Hr.
    split_and!; try done.
    + by rewrite (ti_fifo _ Ht), Hp.
    + intros tp Hin. apply (ti_pending _ Ht _ Hin). unfold ran. rewrite Hr.
      by intros ?%elem_of_nil.
    + intros Hl. split.
      * intros t A func args k.
        set (task := MkTask (PackagedTask (λ _, func args) (length (heap p)))
               : Task t).
        assert (submit no_faults k func args p =
                Ok (get_future task) (pushed k func args p)) as Hsub.
        { unfold submit, try_catch, make_task, add_task, lock_guard,
            queue_push, notify_one, may_throw, gets, modify, acquire, throw,
            mbind, M_bind, mret, M_ret, new_task, get_future, pushed. cbn.
          by rewrite Hm. }
        assert (step (LSubmit t A no_faults k func args) p =
                Some (pushed k func args p)) as Hstep.
        { unfold step, halted, accepts. rewrite Hl. by rewrite Hsub. }
        exists (get_future task), (pushed k func args p), task.
        assert (heap (pushed k func args p) !! length (heap p) =
                Some (empty_cell t)) as Hcell.
        { unfold pushed. pool_simpl. by rewrite list_lookup_middle. }
        split_and!; try done.
        -- by apply future_get_lookup.
        -- intros tp Hin Heq.
           assert (tp ∈ pushes (trace p)) as Hpu
             by (rewrite (ti_fifo _ Ht); apply elem_of_app; by right).
           pose proof (ti_alloc _ Ht _ Hpu) as Hlt. cbn in Heq. lia.
        -- intros ls' p'' Hex'.
           assert (Inv p'') as (_ & _ & Ht'' & _).
           { eapply Inv_exec; [|done]. by eapply Inv_step. }
           destruct (step_frame _ _ _ Hstep) as (Hn1 & _).
           destruct (zero_exec ls' (pushed k func args p) p'')
             as (_ & _ & Hp'' & Hr'');
             [rewrite Hn1; by destruct (exec_frame _ _ _ Hex) as (-> & _)|
              done|done|].
           destruct (exec_frame _ _ _ Hex') as (_ & _ & es & Htr).
           assert (existT t task ∈ pushes (trace p'')) as Hin.
           { rewrite Htr. unfold pushes. rewrite omap_app. apply elem_of_app.
             left. unfold pushed. pool_simpl.
             fold (pushes (trace p ++ [EvPush (new_task func args p)])).
             rewrite pushes_snoc. apply elem_of_app. right.
             apply list_elem_of_here. }
           assert (heap p'' !! length (heap p) = Some (empty_cell t)) as Hcell''.
           { apply (ti_pending _ Ht'' _ Hin). unfold ran. rewrite Hr''.
             unfold pushed. pool_simpl. rewrite runs_snoc, Hr. cbn.
             by intros ?%elem_of_nil. }
           split_and!; [|done|by apply future_get_lookup].
           rewrite (ti_fifo _ Ht''), Hp'' in Hin. unfold pushed in Hin.
           pool_simpl. by rewrite pops_snoc, Hp, app_nil_r in Hin.
      * unfold exec, step, halted, destroy. rewrite Hl. cbn.
        rewrite Hnil. cbn. by eexists.
Qed.

(** * Further properties *)

(** ** Shared states and futures *)

Lemma future_get_Some {t : ty} (fut : future t) (h : list cell) o :
  future_get fut h = Some o →
  ∃ c, h !! fut_state fut = Some c ∧ is_empty_state c = false.
Proof.
  unfold future_get. destruct (h !! fut_state fut) as [[t' s]|]; [|done].
  cbn. destruct (decide (t' = t)) as [->|]; [|done]. cbn.
  intros ->. by eexists.
Qed.

Lemma future_get_ext {t : ty} (fut : future t) (h h' : list cell) :
  h' !! fut_state fut = h !! fut_state fut → future_get fut h' = future_get fut h.
Proof. unfold future_get. unfold cell in *. by intros ->. Qed.

Lemma run_me_ready tp h h' e :
  run_me tp h = (h', e) →
  length h' = length h ∧
  ∀ a c, h !! a = Some c → is_empty_state c = false → h' !! a = Some c.
Proof.
  unfold run_me. intros Hr.
  destruct (h !! task_state tp) as [c0|] eqn:H0; [|by simplify_eq].
  destruct (is_empty_state c0) eqn:He; simplify_eq; [|done].
  split; [by rewrite length_insert|]. intros a c Ha Hc.
  rewrite list_lookup_insert_ne; [done|]. intros <-. congruence.
Qed.

Lemma heap_step l p p' :
  step l p = Some p' →
  length (heap p) ≤ length (heap p') ∧
  ∀ a c, heap p !! a = Some c → is_empty_state c = false →
         heap p' !! a = Some c.
Proof.
  intros H. unfold step in H. destruct (halted p); [done|].
  destruct l as [ok| |t A flt k func args|i|i].
  - unfold ThreadPool_ctor, ctor_catch in H.
    repeat case_match; simplify_eq; by pool_simpl.
  - destroy_cases H; by pool_simpl.
  - destruct (accepts p); [|done].
    apply after_submit in H as [->|[->|[? ->]]]; unfold pushed; pool_simpl;
      rewrite ?length_app; (split; [lia|]); intros a c Ha Hc;
      by try apply lookup_app_l_Some.
  - unfold wait_for_work in H.
    destruct (m_threads p !! i) as [[pc jn]|] eqn:Hth; [|done].
    cbn [mbind option_bind th_pc th_joinable] in H.
    destruct pc; cbn [try_pop] in H.
    8: { destruct (run_me tp (heap p)) as [h e] eqn:Hr.
         destruct (run_me_ready _ _ _ _ Hr) as [Hl Hk].
         destruct e as [[]|]; simplify_eq; pool_simpl;
           try rewrite Hth; pool_simpl; (split; [lia|done]). }
    all: repeat case_match; simplify_eq; pool_simpl; try rewrite Hth;
      by pool_simpl.
  - unfold spurious_wake in H.
    destruct (m_threads p !! i) as [[[] ?]|] eqn:Hth;
      cbn [mbind option_bind th_pc th_joinable] in H; simplify_eq.
    pool_simpl. rewrite Hth. by pool_simpl.
Qed.

Lemma heap_exec ls p p' :
  exec ls p = Some p' →
  length (heap p) ≤ length (heap p') ∧
  ∀ a c, heap p !! a = Some c → is_empty_state c = false →
         heap p' !! a = Some c.
Proof.
  revert p. induction ls as [|l ls IH]; intros p H; cbn in H.
  - by simplify_eq.
  - destruct (step l p) as [p1|] eqn:Hs; [|done]. cbn in H.
    destruct (heap_step _ _ _ Hs) as [Hl1 Hk1].
    destruct (IH _ H) as [Hl2 Hk2]. split; [lia|eauto].
Qed.

(** X7. [run_me] and [get_future] fit together.  When the shared state
    of a task is still empty, running the task throws nothing, and the
    future that [get_future] gave for this task then reads what the
    closure of the task produced, at the result type of the task; every
    future on another shared state reads what it read before; and
    running the same task once more throws
    [promise_already_satisfied] and changes nothing. *)
Theorem X7_run_me_fulfils_its_future {t : ty} (task : Task t) (h : list cell) :
  h !! pt_state (m_task task) = Some (empty_cell t) →
  ∃ h', run_me (existT t task) h = (h', None) ∧
        future_get (get_future task) h' = Some (pt_fn (m_task task) tt) ∧
        (∀ (t' : ty) (fut' : future t'),
           fut_state fut' ≠ pt_state (m_task task) →
           future_get fut' h' = future_get fut' h) ∧
        run_me (existT t task) h' = (h', Some promise_already_satisfied).
Proof.
  intros Hl. pose proof (lookup_lt_Some _ _ _ Hl) as Hlt.
  unfold run_me at 1. unfold task_state. cbn [projT1 projT2].
  unfold cell in *. rewrite Hl. cbn.
  eexists. split_and!; [done| | |].
  - apply future_get_lookup. cbn. by rewrite list_lookup_insert_eq.
  - intros t' fut' Hne. apply future_get_ext.
    by rewrite list_lookup_insert_ne.
  - unfold run_me, task_state. cbn [projT1 projT2].
    by rewrite list_lookup_insert_eq.
Qed.

(** X8. A result is delivered once and for all: when a future reads a
    value or a failure in some state of the pool, it reads the same in
    every later state, whatever the threads do. *)
Theorem X8_results_are_stable {t : ty} (fut : future t) (ls : list label)
    (p p' : pool) (o : outcome (tyD t)) :
  future_get fut (heap p) = Some o →
  exec ls p = Some p' →
  future_get fut (heap p') = Some o.
Proof.
  intros Hg H. destruct (future_get_Some _ _ _ Hg) as (c & Hc & He).
  destruct (heap_exec _ _ _ H) as [_ Hk].
  rewrite <-Hg. apply future_get_ext.
  by rewrite (Hk _ _ Hc He), Hc.
Qed.

(** X9. Every successful [submit] returns a future on a shared state of
    its own: the future of a later call is never the future of an
    earlier one. *)
Theorem X9_futures_are_distinct {t1 t2 : ty} {A1 A2 : Type} flt1 flt2 k1 k2
    (func1 : A1 → outcome (tyD t1)) (args1 : A1)
    (func2 : A2 → outcome (tyD t2)) (args2 : A2)
    (ls : list label) (p p1 p2 p3 : pool) (fut1 : future t1) (fut2 : future t2) :
  submit flt1 k1 func1 args1 p = Ok fut1 p1 →
  exec ls p1 = Some p2 →
  submit flt2 k2 func2 args2 p2 = Ok fut2 p3 →
  fut_state fut1 < fut_state fut2.
Proof.
  intros (_ & _ & -> & ->)%submit_Ok H (_ & _ & -> & _)%submit_Ok.
  destruct (heap_exec _ _ _ H) as [Hl _]. revert Hl.
  unfold pushed. pool_simpl. rewrite length_app. cbn. lia.
Qed.

(** ** The mutex and the queue *)

(** X1. Mutual exclusion.  In every reachable state at most one worker
    is inside the locked part of [try_pop] (between taking the mutex and
    leaving [try_pop] or blocking), the mutex is taken exactly then, and
    a [submit] that gets as far as the lock waits: it changes nothing
    while a worker is in there. *)
Theorem X1_mutual_exclusion (n : nat) (ls : list label) (p : pool) :
  exec ls (init n) = Some p →
  (∀ i j thi thj,
     m_threads p !! i = Some thi → m_threads p !! j = Some thj →
     holds_mutex (th_pc thi) = true → holds_mutex (th_pc thj) = true →
     i = j) ∧
  (m_mutex p = None ↔
   ∀ i th, m_threads p !! i = Some th → holds_mutex (th_pc th) = false) ∧
  (∀ i th, m_threads p !! i = Some th → holds_mutex (th_pc th) = true →
     ∀ (t : ty) (A : Type) (func : A → outcome (tyD t)) (args : A) k flt,
       make_task_throws flt = None → lock_throws flt = None →
       submit flt k func args p = Blocked).
Proof.
  intros Hex.
  assert (Inv p) as ([Hh Ho _] & _) by (eapply Inv_reachable; by eexists).
  split_and!.
  - intros i j thi thj Hi Hj Hci Hcj.
    pose proof (Hh _ _ Hi Hci). pose proof (Hh _ _ Hj Hcj). congruence.
  - split.
    + intros Hm i th Hi. destruct (holds_mutex (th_pc th)) eqn:Hc; [|done].
      pose proof (Hh _ _ Hi Hc). congruence.
    + intros Hall. destruct (m_mutex p) as [i|] eqn:Hm; [|done].
      destruct (Ho _ eq_refl) as (th & Hi & Hc). rewrite (Hall _ _ Hi) in Hc.
      done.
  - intros i th Hi Hc t A func args k [f1 f2 f3] Hf1 Hf2. cbn in Hf1, Hf2.
    subst. pose proof (Hh _ _ Hi Hc) as Hm.
    unfold submit, try_catch, make_task, add_task, lock_guard, queue_push,
      notify_one, may_throw, gets, modify, acquire, throw, mbind, M_bind,
      mret, M_ret. cbn. by rewrite Hm.
Qed.

(** X2. [m_queue.front()] is never called on an empty queue.  In every
    reachable state, also after spurious wake-ups and with the shutdown
    flag set at any moment (between the read of line 151 and the pop as
    well), a worker that the wait has let through and that sees the
    flag unset has a task before it, and a worker that is about to call
    [front()] finds a task in the queue and removes exactly the head.
    So the call of [front()] on an empty queue, the only state the
    model names [CUndefined], is never reached.  (This is about
    [front()] alone; what the unwinding of a failed constructor can do
    is [CUndefinedUnwind].) *)
Theorem X2_front_of_nonempty_queue (n : nat) (ls : list label) (p : pool) :
  exec ls (init n) = Some p →
  ctl p ≠ CUndefined ∧
  (∀ i th, m_threads p !! i = Some th → th_pc th = WCheck →
     m_done p = false → m_queue p ≠ []) ∧
  ∀ i th, m_threads p !! i = Some th → th_pc th = WPop →
    ∃ tp q p', m_queue p = tp :: q ∧ wait_for_work i p = Some p' ∧
               m_queue p' = q ∧ ctl p' = ctl p ∧
               th_pc <$> m_threads p' !! i = Some (WRun tp).
Proof.
  intros Hex.
  assert (Inv p) as (Hm & _ & _ & Hq) by (eapply Inv_reachable; by eexists).
  split_and!; [apply (qi_defined _ Hq)| |].
  - intros i th Hi Hpc Hd.
    apply (wait_pred_queue _ (mi_check _ Hm _ _ Hi Hpc) Hd).
  - intros i th Hi Hpc.
    pose proof (mi_pop _ Hm _ _ Hi Hpc) as Hne.
    pose proof (lookup_lt_Some _ _ _ Hi) as Hlt.
    destruct (m_queue p) as [|tp q] eqn:Hqu; [done|].
    exists tp, q. unfold wait_for_work. rewrite Hi. cbn [mbind option_bind].
    rewrite Hpc. cbn [try_pop]. rewrite Hqu. eexists. split_and!; [done..| | |].
    all: pool_simpl; rewrite Hi; pool_simpl; try done.
    by rewrite list_lookup_insert_eq.
Qed.

(** ** The workers *)

Lemma alive_step l p p' :
  Inv p → step l p = Some p' →
  (∀ i th, m_threads p !! i = Some th →
     th_pc th = WStopped ∨ th_joinable th = false → m_done p = true) →
  ∀ i th, m_threads p' !! i = Some th →
    th_pc th = WStopped ∨ th_joinable th = false → m_done p' = true.
Proof.
  intros (_ & Hc & _) H Hs. unfold ctl_inv in Hc. step_cases H.
  all: try done.
  all: intros j th' Hj Hpc.
  all: try (match goal with Hl : ctl _ = CJoin _ |- _ =>
              rewrite Hl in Hc; by destruct_and? end).
  all: try (insert_cases Hj; cbn in *; destruct Hpc; by eauto).
  all: try (apply lookup_snoc_Some in Hj as [[_ ?]|[_ <-]];
            cbn in *; destruct Hpc; by eauto).
  all: try (match goal with Hd : m_done _ = _ |- _ => rewrite Hd end; by eauto).
Qed.

Lemma alive_exec ls p p' :
  Inv p → exec ls p = Some p' →
  (∀ i th, m_threads p !! i = Some th →
     th_pc th = WStopped ∨ th_joinable th = false → m_done p = true) →
  ∀ i th, m_threads p' !! i = Some th →
    th_pc th = WStopped ∨ th_joinable th = false → m_done p' = true.
Proof.
  revert p. induction ls as [|l ls IH]; intros p Hi H Hs; cbn in H.
  - by simplify_eq.
  - destruct (step l p) as [p1|] eqn:Hst; [|done]. cbn in H.
    eapply IH; [by eapply Inv_step|done|by eapply alive_step].
Qed.

(** X6. The pool keeps its workers.  As long as the shutdown flag is
    not set, no worker thread has left [wait_for_work] and none was
    joined; in a constructed pool these are exactly [num_threads]
    threads. *)
Theorem X6_workers_stay_until_shutdown (n : nat) (ls : list label) (p : pool) :
  exec ls (init n) = Some p →
  m_done p = false →
  length (m_threads p) ≤ n ∧
  (ctl p = CLive → length (m_threads p) = n) ∧
  ∀ i th, m_threads p !! i = Some th →
    th_pc th ≠ WStopped ∧ th_joinable th = true.
Proof.
  intros Hex Hd.
  assert (reachable n p) as Hr by by eexists.
  pose proof (reachable_num_threads _ _ Hr) as Hn.
  assert (Inv p) as (_ & Hc & _) by by apply (Inv_reachable n).
  split_and!.
  - rewrite <-Hn. by apply ctl_inv_bound.
  - intros Hl. by destruct (constructed_thread_count _ _ _ Hex Hl).
  - intros i th Hi.
    assert (th_pc th = WStopped ∨ th_joinable th = false → m_done p = true)
      as Ha.
    { eapply (alive_exec ls (init n)); [apply Inv_init|done| |done].
      intros j th' Hj. cbn in Hj. by rewrite lookup_nil in Hj. }
    split.
    + intros Hpc. rewrite Ha in Hd by auto. done.
    + destruct (th_joinable th) eqn:Hjn; [done|]. rewrite Ha in Hd by auto.
      done.
Qed.

(** ** From the queue to the workers *)

Lemma held_tasks_insert i th th' ts :
  ts !! i = Some th →
  ∃ l1 l2, held_tasks ts = l1 ++ held_tasks [th] ++ l2 ∧
           held_tasks (<[i := th']> ts) = l1 ++ held_tasks [th'] ++ l2.
Proof.
  intros Hi. exists (held_tasks (take i ts)), (held_tasks (drop (S i) ts)).
  pose proof (lookup_lt_Some _ _ _ Hi) as Hlt. split.
  - rewrite <-(take_drop_middle ts i th Hi) at 1.
    unfold held_tasks. rewrite omap_app. cbn. by destruct (th_pc th).
  - rewrite insert_take_drop by done.
    unfold held_tasks. rewrite omap_app. cbn. by destruct (th_pc th').
Qed.

(** What was popped is what was run and what the workers hold. *)
Lemma popped_run_or_held_step l p p' :
  Inv p → step l p = Some p' →
  pops (trace p) ≡ₚ runs (trace p) ++ held_tasks (m_threads p) →
  pops (trace p') ≡ₚ runs (trace p') ++ held_tasks (m_threads p').
Proof.
  intros (_ & _ & Ht & _) H Hp. step_cases H.
  all: try match goal with
       | Hl : m_threads _ !! _ = Some {| th_pc := WRun _; th_joinable := _ |},
         Hr : run_me _ _ = (_, Some _) |- _ =>
           rewrite (run_me_held _ _ _ _ Ht Hl eq_refl) in Hr; discriminate Hr
       end.
  all: rewrite ?pops_snoc, ?runs_snoc, ?app_nil_r; try done.
  all: try match goal with
       | Hl : m_threads ?q !! ?i = Some ?th
         |- context [held_tasks (<[?i := ?th']> (m_threads ?q))] =>
           destruct (held_tasks_insert i th th' _ Hl) as (l1 & l2 & Hh & Hh');
           rewrite Hh'; rewrite Hh in Hp; cbn in Hp |- *
       end.
  all: try (rewrite Hp; solve_Permutation).
  all: try done.
  { unfold held_tasks. rewrite omap_app. cbn. by rewrite app_nil_r. }
  match goal with
  | Hpc : th_pc _ = _ |- _ => rewrite Hpc in Hp; cbn in Hp; exact Hp
  end.
Qed.

Lemma popped_run_or_held n ls p :
  exec ls (init n) = Some p →
  pops (trace p) ≡ₚ runs (trace p) ++ held_tasks (m_threads p).
Proof.
  assert (∀ q, Inv q →
               pops (trace q) ≡ₚ runs (trace q) ++ held_tasks (m_threads q) →
               exec ls q = Some p →
               pops (trace p) ≡ₚ runs (trace p) ++ held_tasks (m_threads p))
    as Hgen.
  { induction ls as [|l ls IH]; intros q Hi Hq H; cbn in H.
    - by simplify_eq.
    - destruct (step l q) as [q1|] eqn:Hs; [|done]. cbn in H.
      eapply IH; [by eapply Inv_step| |done].
      by eapply popped_run_or_held_step. }
  intros Hex. eapply Hgen; [apply Inv_init| |done]. done.
Qed.

(** X3. A task is run at most once, and only tasks that were submitted
    are run: in every reachable state the tasks run so far have pairwise
    different shared states, each of them was popped from the queue, and
    each popped task was pushed by a [submit]. *)
Theorem X3_run_at_most_once (n : nat) (ls : list label) (p : pool) :
  exec ls (init n) = Some p →
  NoDup (task_state <$> runs (trace p)) ∧
  (∀ tp, tp ∈ runs (trace p) → tp ∈ pops (trace p)) ∧
  (∀ tp, tp ∈ pops (trace p) → tp ∈ pushes (trace p)).
Proof.
  intros Hex.
  assert (Inv p) as (_ & _ & Ht & _) by (eapply Inv_reachable; by eexists).
  pose proof (popped_run_or_held _ _ _ Hex) as Hp.
  split_and!.
  - pose proof (ti_nodup _ Ht) as Hn.
    rewrite (ti_fifo _ Ht), fmap_app in Hn. apply NoDup_app in Hn as [Hn _].
    rewrite Hp, fmap_app in Hn. by apply NoDup_app in Hn as [? _].
  - intros tp Hin. rewrite Hp. apply elem_of_app. by left.
  - intros tp Hin. by apply popped_pushed.
Qed.

(** X4. No task gets lost between the queue and the workers: in every
    reachable state the tasks popped so far are, one for one, the tasks
    that were run and the tasks that workers are about to run; and a
    worker that holds a task runs it with its next step. *)
Theorem X4_popped_tasks_are_run (n : nat) (ls : list label) (p : pool) :
  exec ls (init n) = Some p →
  pops (trace p) ≡ₚ runs (trace p) ++ held_tasks (m_threads p) ∧
  ∀ i th tp, m_threads p !! i = Some th → th_pc th = WRun tp →
    ∃ p', wait_for_work i p = Some p' ∧
          runs (trace p') = runs (trace p) ++ [tp] ∧
          pops (trace p') = pops (trace p).
Proof.
  intros Hex. split; [by eapply popped_run_or_held|].
  assert (Inv p) as (_ & _ & Ht & _) by (eapply Inv_reachable; by eexists).
  intros i th tp Hth Hpc.
  pose proof (run_me_held _ _ _ _ Ht Hth Hpc) as Hrun.
  unfold wait_for_work. rewrite Hth. cbn [mbind option_bind]. rewrite Hpc, Hrun.
  eexists. split; [done|]. pool_simpl. destruct (m_threads p !! i); [|done].
  pool_simpl. by rewrite runs_snoc, pops_snoc, app_nil_r.
Qed.

Lemma held_tasks_insert_single i th th' ts :
  length ts ≤ 1 → ts !! i = Some th →
  held_tasks ts = held_tasks [th] ∧
  held_tasks (<[i := th']> ts) = held_tasks [th'].
Proof.
  destruct ts as [|x [|y ts]]; cbn; intros Hl Hi; [done| |lia].
  destruct i as [|i]; cbn in Hi; simplify_eq. done.
Qed.

Lemma single_worker_step l p p' :
  Inv p → length (m_threads p) ≤ 1 → step l p = Some p' →
  pops (trace p) = runs (trace p) ++ held_tasks (m_threads p) →
  pops (trace p') = runs (trace p') ++ held_tasks (m_threads p').
Proof.
  intros (_ & _ & Ht & _) Hlen H Hp. step_cases H.
  all: try match goal with
       | Hl : m_threads _ !! _ = Some {| th_pc := WRun _; th_joinable := _ |},
         Hr : run_me _ _ = (_, Some _) |- _ =>
           rewrite (run_me_held _ _ _ _ Ht Hl eq_refl) in Hr; discriminate Hr
       end.
  all: rewrite ?pops_snoc, ?runs_snoc, ?app_nil_r; try done.
  all: try match goal with
       | Hl : m_threads ?q !! ?i = Some ?th
         |- context [held_tasks (<[?i := ?th']> (m_threads ?q))] =>
           destruct (held_tasks_insert_single i th th' _ Hlen Hl) as (Hh & Hh');
           rewrite Hh'; rewrite Hh in Hp; cbn in Hp |- *
       end.
  all: rewrite ?app_nil_r in *; try done.
  all: try (by rewrite Hp).
  { unfold held_tasks. rewrite omap_app. cbn. by rewrite app_nil_r. }
  match goal with
  | Hpc : th_pc _ = _ |- _ => rewrite Hpc in Hp; cbn in Hp
  end.
  by rewrite app_nil_r in Hp.
Qed.

(** X11. With one worker the tasks are run in the order in which they
    were submitted: in every state that a pool of one thread reaches,
    the tasks pushed so far are the tasks run so far, then the task the
    worker is about to run, if any, then the queue. *)
Theorem X11_single_worker_runs_in_order (ls : list label) (p : pool) :
  exec ls (init 1) = Some p →
  pushes (trace p) =
    runs (trace p) ++ held_tasks (m_threads p) ++ m_queue p ∧
  length (held_tasks (m_threads p)) ≤ 1.
Proof.
  intros Hex.
  assert (Inv p) as Hi by (eapply Inv_reachable; by eexists).
  assert (∀ q, Inv q → num_threads q = 1 →
               pops (trace q) = runs (trace q) ++ held_tasks (m_threads q) →
               exec ls q = Some p →
               pops (trace p) = runs (trace p) ++ held_tasks (m_threads p))
    as Hgen.
  { clear. induction ls as [|l ls IH]; intros q Hi Hn Hq H; cbn in H.
    - by simplify_eq.
    - destruct (step l q) as [q1|] eqn:Hs; [|done]. cbn in H.
      destruct (step_frame _ _ _ Hs) as (Hn1 & _).
      eapply IH; [by eapply Inv_step|congruence| |done].
      eapply single_worker_step; [done| |done|done].
      destruct Hi as (_ & Hc & _). apply ctl_inv_bound in Hc. lia. }
  pose proof (Hgen (init 1) (Inv_init 1) eq_refl eq_refl Hex) as Hp.
  destruct Hi as (_ & Hc & Ht & _). split.
  - by rewrite (ti_fifo _ Ht), Hp, app_assoc.
  - apply ctl_inv_bound in Hc.
    assert (num_threads p = 1) as Hn
      by (apply reachable_num_threads; by eexists).
    rewrite Hn in Hc. unfold held_tasks.
    destruct (m_threads p) as [|x [|y ts]]; cbn in *; [lia| |lia].
    destruct (th_pc x); cbn; lia.
Qed.

(** ** The constructor when nothing fails *)

Lemma ctor_loop m : ∀ p i,
  ctl p = CCtor i → i + m = num_threads p →
  ∃ p', exec (replicate (S m) (LCtor true)) p = Some p' ∧ ctl p' = CLive ∧
        m_threads p' = m_threads p ++ replicate m (Thread WLoop true) ∧
        m_done p' = m_done p ∧ m_queue p' = m_queue p ∧
        m_condition p' = m_condition p ∧ m_mutex p' = m_mutex p ∧
        heap p' = heap p ∧
        trace p' = trace p ++ (EvSpawn <$> seq i m).
Proof.
  induction m as [|m IH]; intros p i Hl Hn.
  - exists (set_ctl CLive p). cbn [replicate exec].
    unfold step, halted, ThreadPool_ctor. rewrite Hl.
    rewrite bool_decide_eq_false_2 by lia. cbn. by rewrite !app_nil_r.
  - set (p1 := set_ctl (CCtor (S i))
                 (set_threads (m_threads p ++ [Thread WLoop true])
                    (emit (EvSpawn i) p))).
    destruct (IH p1 (S i)) as (p' & Hex & Hl' & Hts & Hd & Hq & Hc & Hm & Hh & Ht);
      [done|cbn; lia|].
    exists p'. split.
    { change (replicate (S (S m)) (LCtor true))
        with (LCtor true :: replicate (S m) (LCtor true)).
      cbn [exec]. unfold step at 1, halted, ThreadPool_ctor. rewrite Hl.
      rewrite bool_decide_eq_true_2 by lia. exact Hex. }
    split_and!; try done.
    + rewrite Hts. cbn. by rewrite <-app_assoc.
    + rewrite Ht. cbn. by rewrite <-app_assoc.
Qed.

(** X10. The constructor succeeds when no library call fails.  For every
    [num_threads] the constructor returns after [num_threads + 2] steps
    with exactly [num_threads] joinable workers, each at the head of its
    loop, the flag unset, the queue empty, nobody waiting and the mutex
    free; the threads were started in index order. *)
Theorem X10_construction_succeeds (n : nat) :
  ∃ p, exec (construction n) (init n) = Some p ∧ ctl p = CLive ∧
       m_threads p = replicate n (Thread WLoop true) ∧
       m_done p = false ∧ m_queue p = [] ∧ m_condition p = [] ∧
       m_mutex p = None ∧ heap p = [] ∧
       trace p = EvSpawn <$> seq 0 n.
Proof.
  destruct (ctor_loop n (set_ctl (CCtor 0) (init n)) 0)
    as (p & Hex & Hl & Hts & Hd & Hq & Hc & Hm & Hh & Ht); [done..|].
  exists p. split; [|done].
  unfold construction.
  change (replicate (S (S n)) (LCtor true))
    with (LCtor true :: replicate (S n) (LCtor true)).
  cbn [exec]. exact Hex.
Qed.


(** ** The constructor when a library call fails *)



(** ** Wake-ups *)

Lemma awake_worker (ws : list nat) (n : nat) :
  length ws < n → ∃ i, i < n ∧ i ∉ ws.
Proof.
  intros Hlt. destruct (decide (Forall (λ i, i ∈ ws) (seq 0 n))) as [Hall|Hex].
  - assert (seq 0 n ⊆+ ws) as Hs.
    { apply NoDup_submseteq; [apply NoDup_seq|].
      intros i Hi. by apply (proj1 (Forall_forall _ _) Hall). }
    apply submseteq_length in Hs. rewrite length_seq in Hs. lia.
  - apply not_Forall_Exists in Hex; [|apply _].
    apply Exists_exists in Hex as (i & Hi%elem_of_seq & Hn).
    exists i. split; [lia|done].
Qed.

Lemma some_worker_awake p :
  wake_inv p → m_queue p ≠ [] → m_threads p ≠ [] →
  ∃ i th, m_threads p !! i = Some th ∧ i ∉ m_condition p.
Proof.
  intros [_ _ _ Hcnt] Hq Hts.
  assert (length (m_condition p) < length (m_threads p)) as Hlt.
  { destruct Hcnt as [?|[->|?]]; [done| |].
    - destruct (m_threads p); [done|cbn; lia].
    - destruct (m_queue p); [done|cbn in *; lia]. }
  destruct (awake_worker _ _ Hlt) as (i & Hi & Hn).
  destruct (lookup_lt_is_Some_2 _ _ Hi) as [th Hth]. by exists i, th.
Qed.

(** X5. No wake-up of [add_task] is lost.  In every reachable state in
    which a task is queued, the entries of the condition variable are
    different workers, each blocked in [wait]; no worker is between the
    predicate that it found false and the [wait]; and if the pool has
    threads at all, one of them is not blocked in [wait]. *)
Theorem X5_no_lost_wakeup_on_submit (n : nat) (ls : list label) (p : pool) :
  exec ls (init n) = Some p →
  m_queue p ≠ [] →
  NoDup (m_condition p) ∧
  (∀ i, i ∈ m_condition p →
     ∃ th, m_threads p !! i = Some th ∧ th_pc th = WWait) ∧
  (∀ i th, m_threads p !! i = Some th → th_pc th ≠ WBlock) ∧
  (m_threads p ≠ [] →
   ∃ i th, m_threads p !! i = Some th ∧ i ∉ m_condition p).
Proof.
  intros Hex Hq.
  assert (wake_inv p) as Hw by (eapply wake_inv_reachable; by eexists).
  pose proof Hw as [Hnd Hwt Hbl Hcnt].
  split_and!; [done|done| |].
  - intros i th Hi Hpc. by apply Hq, (Hbl i th).
  - by apply some_worker_awake.
Qed.

(** ** [notify_one] and spurious wake-ups *)

Lemma elem_of_delete_ne {X : Type} (l : list X) j x y :
  l !! j = Some x → y ∈ l → y ≠ x → y ∈ delete j l.
Proof.
  intros Hj Hy Hne. rewrite delete_take_drop.
  rewrite <-(take_drop_middle l j x Hj) in Hy.
  apply elem_of_app in Hy as [Hy|[->|Hy]%elem_of_cons]; [|done|].
  - apply elem_of_app. by left.
  - apply elem_of_app. by right.
Qed.

Lemma filter_out_snoc (l : list nat) i :
  NoDup l → i ∈ l → filter (λ j, j ≠ i) l ++ [i] ≡ₚ l.
Proof.
  intros Hnd. induction Hnd as [|a l Ha Hnd IH]; intros Hi.
  - by apply elem_of_nil in Hi.
  - rewrite filter_cons. destruct (decide (a ≠ i)) as [Hne|Heq].
    + cbn. f_equiv. apply IH. apply elem_of_cons in Hi as [->|Hi]; done.
    + apply dec_stable in Heq. subst a.
      assert (filter (λ j, j ≠ i) l = l) as ->.
      { clear IH Hi Hnd. induction l as [|b l IH]; [done|].
        rewrite filter_cons. apply not_elem_of_cons in Ha as [Hb Ha].
        rewrite decide_True by done. f_equal. by apply IH. }
      by rewrite Permutation_app_comm.
Qed.

(** X17. [notify_one] wakes one waiting worker.  When a [submit]
    succeeds in a reachable state in which workers are blocked in
    [wait], exactly one of them is taken off the condition variable and
    the others stay blocked; the next step of the woken worker is to
    lock the mutex again. *)
Theorem X17_submit_wakes_one_worker {t : ty} {A : Type} (n : nat)
    (ls : list label) (p : pool) (flt : faults) (k : nat)
    (func : A → outcome (tyD t)) (args : A) (fut : future t) (p1 : pool) :
  exec ls (init n) = Some p →
  submit flt k func args p = Ok fut p1 →
  m_condition p ≠ [] →
  ∃ i, i ∈ m_condition p ∧ (i ∉ m_condition p1) ∧
       length (m_condition p1) + 1 = length (m_condition p) ∧
       (∀ j, j ∈ m_condition p → j ≠ i → j ∈ m_condition p1) ∧
       (∀ j, j ∈ m_condition p1 → j ∈ m_condition p) ∧
       ∃ p2, wait_for_work i p1 = Some p2 ∧
             th_pc <$> m_threads p2 !! i = Some WLock ∧
             m_condition p2 = m_condition p1.
Proof.
  intros Hex (-> & Hm & -> & ->)%submit_Ok Hne.
  assert (wake_inv p) as [Hnd Hwt _ _] by (eapply wake_inv_reachable; by eexists).
  set (j := k mod length (m_condition p)).
  assert (j < length (m_condition p)) as Hj.
  { apply Nat.mod_upper_bound. by destruct (m_condition p). }
  destruct (lookup_lt_is_Some_2 _ _ Hj) as [i Hi].
  exists i. unfold pushed. pool_simpl. fold j.
  pose proof (NoDup_delete_lookup _ _ _ Hnd Hi) as Hni.
  split_and!.
  - by eapply list_elem_of_lookup_2.
  - done.
  - rewrite length_delete by done. lia.
  - intros j' Hj' Hne'. by eapply elem_of_delete_ne.
  - by intros j' Hj'%list_elem_of_delete_inv.
  - destruct (Hwt i) as ([pc jn] & Hth & Hpc); [by eapply list_elem_of_lookup_2|].
    cbn in Hpc. subst pc. unfold wait_for_work. pool_simpl. rewrite Hth.
    cbn [mbind option_bind th_pc try_pop]. pool_simpl.
    rewrite bool_decide_eq_false_2 by done.
    eexists. split; [done|]. pool_simpl. rewrite Hth. pool_simpl.
    split; [|done]. rewrite list_lookup_insert_eq; [done|].
    by eapply lookup_lt_Some.
Qed.

(** X18. A spurious wake-up with nothing to do leads back to the wait.
    In a constructed pool whose queue is empty and whose mutex is free,
    a worker that is blocked in [wait] and wakes up spuriously locks the
    mutex, evaluates the predicate, finds it false and blocks again:
    after these four steps the threads, the queue, the flag, the mutex,
    the shared states and the history are as before, and the same
    workers are blocked. *)
Theorem X18_spurious_wakeup_returns_to_wait (n : nat) (ls : list label)
    (p : pool) (i : nat) :
  exec ls (init n) = Some p →
  ctl p = CLive → i ∈ m_condition p →
  m_queue p = [] → m_mutex p = None →
  ∃ p', exec [LSpurious i; LWorker i; LWorker i; LWorker i] p = Some p' ∧
        m_threads p' = m_threads p ∧ m_condition p' ≡ₚ m_condition p ∧
        m_queue p' = [] ∧ m_done p' = false ∧ m_mutex p' = None ∧
        heap p' = heap p ∧ trace p' = trace p ∧ ctl p' = CLive.
Proof.
  intros Hex Hl Hi Hq Hm.
  assert (wake_inv p) as [Hnd Hwt _ _] by (eapply wake_inv_reachable; by eexists).
  destruct (constructed_thread_count _ _ _ Hex Hl) as (_ & Hd & _).
  destruct (Hwt i Hi) as ([pc jn] & Hth & Hpc). cbn in Hpc. subst pc.
  pose proof (lookup_lt_Some _ _ _ Hth) as Hlt.
  destruct p as [d q ts c m h out nt cl tr]. cbn in *. subst d q m cl.
  set (c' := filter (λ j, j ≠ i) c).
  assert (step (LSpurious i) (Pool false [] ts c None h out nt CLive tr) =
          Some (Pool false [] (<[i:=Thread WLock jn]> ts) c' None h out nt CLive tr))
    as Hs1.
  { unfold step, halted, spurious_wake, set_pc. cbn. by rewrite Hth. }
  assert (step (LWorker i)
            (Pool false [] (<[i:=Thread WLock jn]> ts) c' None h out nt CLive tr) =
          Some (Pool false [] (<[i:=Thread WPred jn]> ts) c' (Some i) h out nt
                  CLive tr)) as Hs2.
  { unfold step, halted, wait_for_work, set_pc. cbn.
    rewrite list_lookup_insert_eq by done. cbn.
    unfold set_pc. cbn. rewrite list_lookup_insert_eq by done. cbn.
    by rewrite list_insert_insert_eq. }
  assert (step (LWorker i)
            (Pool false [] (<[i:=Thread WPred jn]> ts) c' (Some i) h out nt
               CLive tr) =
          Some (Pool false [] (<[i:=Thread WBlock jn]> ts) c' (Some i) h out nt
                  CLive tr)) as Hs3.
  { unfold step, halted, wait_for_work, set_pc. cbn.
    rewrite list_lookup_insert_eq by done. cbn.
    unfold set_pc. cbn. rewrite list_lookup_insert_eq by done. cbn.
    by rewrite list_insert_insert_eq. }
  assert (step (LWorker i)
            (Pool false [] (<[i:=Thread WBlock jn]> ts) c' (Some i) h out nt
               CLive tr) =
          Some (Pool false [] (<[i:=Thread WWait jn]> ts) (c' ++ [i]) None h out nt
                  CLive tr)) as Hs4.
  { unfold step, halted, wait_for_work, set_pc. cbn.
    rewrite list_lookup_insert_eq by done. cbn.
    unfold set_pc. cbn. rewrite list_lookup_insert_eq by done. cbn.
    by rewrite list_insert_insert_eq. }
  eexists. cbn [exec]. rewrite Hs1. cbn [mbind option_bind].
  rewrite Hs2. cbn [mbind option_bind]. rewrite Hs3. cbn [mbind option_bind].
  rewrite Hs4. cbn [mbind option_bind]. split; [done|]. cbn.
  split_and!; try done.
  - by apply list_insert_id.
  - by apply filter_out_snoc.
Qed.

(** ** A queued task can be popped *)

Lemma worker_step i p :
  halted p = false → step (LWorker i) p = wait_for_work i p.
Proof. intros Hh. unfold step. by rewrite Hh. Qed.

Lemma set_pc_lookup i pc p th :
  m_threads p !! i = Some th →
  m_threads (set_pc i pc p) !! i = Some (Thread pc (th_joinable th)).
Proof.
  intros Hth. unfold set_pc. rewrite Hth. pool_simpl.
  apply list_lookup_insert_eq. by eapply lookup_lt_Some.
Qed.

Lemma set_pc_threads i pc p th :
  m_threads p !! i = Some th →
  m_threads (set_pc i pc p) = <[i:=Thread pc (th_joinable th)]> (m_threads p).
Proof. intros Hth. unfold set_pc. by rewrite Hth. Qed.

Lemma set_pc_frame i pc p :
  m_done (set_pc i pc p) = m_done p ∧ m_queue (set_pc i pc p) = m_queue p ∧
  m_condition (set_pc i pc p) = m_condition p ∧
  m_mutex (set_pc i pc p) = m_mutex p ∧ heap (set_pc i pc p) = heap p ∧
  ctl (set_pc i pc p) = ctl p ∧ trace (set_pc i pc p) = trace p ∧
  halted (set_pc i pc p) = halted p.
Proof. unfold set_pc, halted. by destruct (m_threads p !! i). Qed.

Lemma takes_next k i p p1 pc jn :
  step (LWorker i) p = Some p1 →
  m_threads p1 = <[i:=Thread pc jn]> (m_threads p) →
  m_done p1 = m_done p → m_queue p1 = m_queue p → ctl p1 = ctl p →
  pops (trace p1) = pops (trace p) →
  takes_head k i p1 → takes_head (S k) i p.
Proof.
  intros Hs Hts Hd Hq Hl Hp (p' & tp & jn' & Hex & Hq' & Hp' & Hts' & Hd' & Hl').
  exists p', tp, jn'. cbn [replicate exec]. rewrite Hs. cbn [mbind option_bind].
  split_and!; [exact Hex|congruence|congruence| |congruence..].
  rewrite Hts', Hts. apply list_insert_insert_eq.
Qed.

Lemma pop_from_pop i p jn :
  halted p = false → m_threads p !! i = Some (Thread WPop jn) →
  m_queue p ≠ [] → takes_head 1 i p.
Proof.
  intros Hh Hth Hq. destruct (m_queue p) as [|tp q] eqn:Hqu; [done|].
  exists (set_pc i (WRun tp) (set_mutex None (set_queue q (emit (EvPop i tp) p)))),
    tp, jn.
  pose proof (set_pc_frame i (WRun tp)
                (set_mutex None (set_queue q (emit (EvPop i tp) p))))
    as (Hd1 & Hq1 & _ & _ & _ & Hl1 & Ht1 & _).
  split_and!.
  - cbn [replicate exec]. rewrite worker_step by done.
    unfold wait_for_work. rewrite Hth. cbn [mbind option_bind th_pc try_pop].
    by rewrite Hqu.
  - by rewrite Hq1.
  - rewrite Ht1. cbn. by rewrite pops_snoc.
  - apply (set_pc_threads i (WRun tp)
             (set_mutex None (set_queue q (emit (EvPop i tp) p))) _ Hth).
  - by rewrite Hd1.
  - by rewrite Hl1.
Qed.

Lemma pop_from_check i p jn :
  halted p = false → m_threads p !! i = Some (Thread WCheck jn) →
  m_done p = false → m_queue p ≠ [] → takes_head 2 i p.
Proof.
  intros Hh Hth Hd Hq.
  pose proof (set_pc_frame i WPop p)
    as (Hd1 & Hq1 & _ & Hm1 & _ & Hl1 & Ht1 & Hh1).
  eapply (takes_next _ _ _ (set_pc i WPop p));
    [|by apply (set_pc_threads i WPop p _ Hth)|done|done|done|by rewrite Ht1|].
  - rewrite worker_step by done. unfold wait_for_work. rewrite Hth.
    cbn [mbind option_bind th_pc try_pop]. by rewrite Hd.
  - eapply pop_from_pop;
      [by rewrite Hh1|by apply (set_pc_lookup i WPop p _ Hth)|by rewrite Hq1].
Qed.

Lemma pop_from_pred i p jn :
  halted p = false → m_threads p !! i = Some (Thread WPred jn) →
  m_done p = false → m_queue p ≠ [] → takes_head 3 i p.
Proof.
  intros Hh Hth Hd Hq.
  pose proof (set_pc_frame i WCheck p)
    as (Hd1 & Hq1 & _ & Hm1 & _ & Hl1 & Ht1 & Hh1).
  eapply (takes_next _ _ _ (set_pc i WCheck p));
    [|by apply (set_pc_threads i WCheck p _ Hth)|done|done|done|by rewrite Ht1|].
  - rewrite worker_step by done. unfold wait_for_work. rewrite Hth.
    cbn [mbind option_bind th_pc try_pop]. unfold wait_pred. rewrite Hd.
    by rewrite bool_decide_eq_false_2.
  - eapply pop_from_check;
      [by rewrite Hh1|by apply (set_pc_lookup i WCheck p _ Hth)|
       by rewrite Hd1|by rewrite Hq1].
Qed.

Lemma pop_from_lock i p jn :
  halted p = false → m_threads p !! i = Some (Thread WLock jn) →
  m_done p = false → m_queue p ≠ [] → m_mutex p = None → takes_head 4 i p.
Proof.
  intros Hh Hth Hd Hq Hm.
  pose proof (set_pc_frame i WPred (set_mutex (Some i) p))
    as (Hd1 & Hq1 & _ & Hm1 & _ & Hl1 & Ht1 & Hh1).
  eapply (takes_next _ _ _ (set_pc i WPred (set_mutex (Some i) p)));
    [|by apply (set_pc_threads i WPred (set_mutex (Some i) p) _ Hth)|
     done|done|done|by rewrite Ht1|].
  - rewrite worker_step by done. unfold wait_for_work. rewrite Hth.
    cbn [mbind option_bind th_pc try_pop]. by rewrite Hm.
  - eapply pop_from_pred;
      [by rewrite Hh1|
       by apply (set_pc_lookup i WPred (set_mutex (Some i) p) _ Hth)|
       by rewrite Hd1|by rewrite Hq1].
Qed.

Lemma pop_from_wait i p jn :
  halted p = false → m_threads p !! i = Some (Thread WWait jn) →
  m_done p = false → m_queue p ≠ [] → m_mutex p = None →
  i ∉ m_condition p → takes_head 5 i p.
Proof.
  intros Hh Hth Hd Hq Hm Hc.
  pose proof (set_pc_frame i WLock p)
    as (Hd1 & Hq1 & _ & Hm1 & _ & Hl1 & Ht1 & Hh1).
  eapply (takes_next _ _ _ (set_pc i WLock p));
    [|by apply (set_pc_threads i WLock p _ Hth)|done|done|done|by rewrite Ht1|].
  - rewrite worker_step by done. unfold wait_for_work. rewrite Hth.
    cbn [mbind option_bind th_pc try_pop]. by rewrite bool_decide_eq_false_2.
  - eapply pop_from_lock;
      [by rewrite Hh1|by apply (set_pc_lookup i WLock p _ Hth)|
       by rewrite Hd1|by rewrite Hq1|by rewrite Hm1].
Qed.

Lemma pop_from_loop i p jn :
  halted p = false → m_threads p !! i = Some (Thread WLoop jn) →
  m_done p = false → m_queue p ≠ [] → m_mutex p = None → takes_head 5 i p.
Proof.
  intros Hh Hth Hd Hq Hm.
  pose proof (set_pc_frame i WLock p)
    as (Hd1 & Hq1 & _ & Hm1 & _ & Hl1 & Ht1 & Hh1).
  eapply (takes_next _ _ _ (set_pc i WLock p));
    [|by apply (set_pc_threads i WLock p _ Hth)|done|done|done|by rewrite Ht1|].
  - rewrite worker_step by done. unfold wait_for_work. rewrite Hth.
    cbn [mbind option_bind th_pc try_pop]. by rewrite Hd.
  - eapply pop_from_lock;
      [by rewrite Hh1|by apply (set_pc_lookup i WLock p _ Hth)|
       by rewrite Hd1|by rewrite Hq1|by rewrite Hm1].
Qed.

Lemma pop_from_run i p jn tp' h :
  halted p = false → m_threads p !! i = Some (Thread (WRun tp') jn) →
  run_me tp' (heap p) = (h, None) →
  m_done p = false → m_queue p ≠ [] → m_mutex p = None → takes_head 6 i p.
Proof.
  intros Hh Hth Hr Hd Hq Hm.
  pose proof (set_pc_frame i WLoop (set_heap h (emit (EvRun i tp') p)))
    as (Hd1 & Hq1 & _ & Hm1 & _ & Hl1 & Ht1 & Hh1).
  eapply (takes_next _ _ _ (set_pc i WLoop (set_heap h (emit (EvRun i tp') p))));
    [|by apply (set_pc_threads i WLoop (set_heap h (emit (EvRun i tp') p)) _ Hth)|
     done|done|done| |].
  - rewrite worker_step by done. unfold wait_for_work. rewrite Hth.
    cbn [mbind option_bind th_pc try_pop]. by rewrite Hr.
  - rewrite Ht1. pool_simpl. by rewrite pops_snoc, app_nil_r.
  - eapply pop_from_loop;
      [by rewrite Hh1|
       by apply (set_pc_lookup i WLoop (set_heap h (emit (EvRun i tp') p)) _ Hth)|
       by rewrite Hd1|by rewrite Hq1|by rewrite Hm1].
Qed.


(** Some worker can take the head: the holder of the mutex if there is
    one, otherwise a worker that is not blocked in [wait]. *)
Lemma some_worker_takes_head p :
  Inv p → wake_inv p → halted p = false → m_done p = false →
  m_threads p ≠ [] →
  (∀ i th, m_threads p !! i = Some th → th_pc th ≠ WStopped) →
  m_queue p ≠ [] →
  ∃ i k, k ≤ 6 ∧ i < length (m_threads p) ∧ takes_head k i p.
Proof.
  intros (Hmi & _ & Hti & Hqi) Hw Hh Hd Hts Hns Hq.
  destruct (m_mutex p) as [j|] eqn:Hm.
  - destruct (mi_owner _ Hmi _ Hm) as ([pc jn] & Hth & Hpc).
    pose proof (lookup_lt_Some _ _ _ Hth) as Hlt.
    exists j. destruct pc; try discriminate Hpc.
    + exists 3. split_and!; [lia|done|]. by eapply pop_from_pred.
    + by destruct Hq, (wi_block _ Hw _ _ Hth eq_refl).
    + exists 2. split_and!; [lia|done|]. by eapply pop_from_check.
    + exists 1. split_and!; [lia|done|]. by eapply pop_from_pop.
  - destruct (some_worker_awake p) as (i & [pc jn] & Hth & Hc); [done..|].
    pose proof (lookup_lt_Some _ _ _ Hth) as Hlt.
    exists i. destruct pc.
    + exists 5. split_and!; [lia|done|]. by eapply pop_from_loop.
    + exists 4. split_and!; [lia|done|]. by eapply pop_from_lock.
    + pose proof (mi_holder _ Hmi _ _ Hth eq_refl). congruence.
    + pose proof (mi_holder _ Hmi _ _ Hth eq_refl). congruence.
    + exists 5. split_and!; [lia|done|]. by eapply pop_from_wait.
    + pose proof (mi_holder _ Hmi _ _ Hth eq_refl). congruence.
    + pose proof (mi_holder _ Hmi _ _ Hth eq_refl). congruence.
    + exists 6. split_and!; [lia|done|].
      pose proof (run_me_held _ _ _ _ Hti Hth eq_refl) as Hrun.
      by eapply pop_from_run.
    + by destruct (qi_no_catch _ Hqi _ _ Hth).
    + by destruct (Hns _ _ Hth).
Qed.

Lemma not_stopped n p :
  reachable n p → m_done p = false →
  ∀ i th, m_threads p !! i = Some th → th_pc th ≠ WStopped.
Proof.
  intros [ls Hex] Hd i th Hth Hpc.
  assert (m_done p = true) as Hd'; [|congruence].
  eapply (alive_exec ls (init n)); [apply Inv_init|done| |done|by left].
  intros j th' Hj. cbn in Hj. by rewrite lookup_nil in Hj.
Qed.


(** X12. A queued task is not stranded.  In every reachable state of a
    constructed pool with at least one thread, not yet shut down, in
    which a task is queued, some worker can take the head of the queue
    in at most six steps of its own (run, loop test, lock, predicate,
    read of the flag, pop), without any other thread moving: the worker
    that holds the mutex if one does, otherwise a worker that is not
    blocked in [wait].  Afterwards that worker is about to run
    the task and the other threads are where they were. *)
Theorem X12_queued_task_can_be_popped (n : nat) (ls : list label) (p : pool)
    (tp : task_ptr) (q : list task_ptr) :
  exec ls (init n) = Some p →
  ctl p = CLive → 0 < n →
  m_queue p = tp :: q →
  ∃ i k p', k ≤ 6 ∧ exec (replicate k (LWorker i)) p = Some p' ∧
            pops (trace p') = pops (trace p) ++ [tp] ∧ m_queue p' = q ∧
            th_pc <$> m_threads p' !! i = Some (WRun tp) ∧
            ∀ j, j ≠ i → m_threads p' !! j = m_threads p !! j.
Proof.
  intros Hex Hl Hn Hq.
  assert (reachable n p) as Hr by by eexists.
  destruct (constructed_thread_count _ _ _ Hex Hl) as (Hlen & Hd & _).
  destruct (some_worker_takes_head p)
    as (i & k & Hk & Hlt & p' & tp' & jn & Hex' & Hq' & Hp' & Hts' & _);
    [by apply (Inv_reachable n)|by apply (wake_inv_reachable n)|
     by unfold halted; rewrite Hl|done| |by apply (not_stopped n)|
     by rewrite Hq|].
  { intros Hts. rewrite Hts in Hlen. cbn in Hlen. lia. }
  rewrite Hq in Hq'. simplify_eq.
  exists i, k, p'. split_and!; try done.
  - by rewrite Hts', list_lookup_insert_eq.
  - intros j Hj. by rewrite Hts', list_lookup_insert_ne.
Qed.

(** ** [destroy] can return *)

Lemma stops_next k i p p1 pc jn :
  step (LWorker i) p = Some p1 →
  m_threads p1 = <[i:=Thread pc jn]> (m_threads p) →
  m_done p1 = m_done p → m_queue p1 = m_queue p →
  m_condition p1 = m_condition p → ctl p1 = ctl p →
  stops_within k i p1 → stops_within (S k) i p.
Proof.
  intros Hs Hts Hd Hq Hc Hl (p' & jn' & Hex & Hts' & Hm' & Hd' & Hq' & Hc' & Hl').
  exists p', jn'. cbn [replicate exec]. rewrite Hs. cbn [mbind option_bind].
  split_and!; [exact Hex| |done|congruence..].
  rewrite Hts', Hts. apply list_insert_insert_eq.
Qed.

Lemma stop_from_loop i p jn :
  halted p = false → m_threads p !! i = Some (Thread WLoop jn) →
  m_done p = true → m_mutex p = None → stops_within 1 i p.
Proof.
  intros Hh Hth Hd Hm. exists (set_pc i WStopped p), jn.
  pose proof (set_pc_frame i WStopped p) as (Hd1 & Hq1 & Hc1 & Hm1 & _ & Hl1 & _).
  split_and!; [|by apply (set_pc_threads _ _ _ _ Hth)|congruence..].
  cbn [replicate exec]. rewrite worker_step by done.
  unfold wait_for_work. rewrite Hth. cbn [mbind option_bind th_pc try_pop].
  by rewrite Hd.
Qed.

Lemma stop_from_check i p jn :
  halted p = false → m_threads p !! i = Some (Thread WCheck jn) →
  m_done p = true → stops_within 2 i p.
Proof.
  intros Hh Hth Hd.
  pose proof (set_pc_frame i WLoop (set_mutex None p))
    as (Hd1 & Hq1 & Hc1 & Hm1 & _ & Hl1 & _ & Hh1).
  eapply (stops_next _ _ _ (set_pc i WLoop (set_mutex None p)));
    [|by apply (set_pc_threads i WLoop (set_mutex None p) _ Hth)|done..|].
  - rewrite worker_step by done. unfold wait_for_work. rewrite Hth.
    cbn [mbind option_bind th_pc try_pop]. by rewrite Hd.
  - eapply stop_from_loop;
      [by rewrite Hh1|by apply (set_pc_lookup i WLoop (set_mutex None p) _ Hth)|
       by rewrite Hd1|by rewrite Hm1].
Qed.

Lemma stop_from_pred i p jn :
  halted p = false → m_threads p !! i = Some (Thread WPred jn) →
  m_done p = true → stops_within 3 i p.
Proof.
  intros Hh Hth Hd.
  pose proof (set_pc_frame i WCheck p)
    as (Hd1 & Hq1 & Hc1 & Hm1 & _ & Hl1 & _ & Hh1).
  eapply (stops_next _ _ _ (set_pc i WCheck p));
    [|by apply (set_pc_threads i WCheck p _ Hth)|done..|].
  - rewrite worker_step by done. unfold wait_for_work. rewrite Hth.
    cbn [mbind option_bind th_pc try_pop]. unfold wait_pred. by rewrite Hd.
  - eapply stop_from_check;
      [by rewrite Hh1|by apply (set_pc_lookup i WCheck p _ Hth)|by rewrite Hd1].
Qed.

Lemma stop_from_lock i p jn :
  halted p = false → m_threads p !! i = Some (Thread WLock jn) →
  m_done p = true → m_mutex p = None → stops_within 4 i p.
Proof.
  intros Hh Hth Hd Hm.
  pose proof (set_pc_frame i WPred (set_mutex (Some i) p))
    as (Hd1 & Hq1 & Hc1 & Hm1 & _ & Hl1 & _ & Hh1).
  eapply (stops_next _ _ _ (set_pc i WPred (set_mutex (Some i) p)));
    [|by apply (set_pc_threads i WPred (set_mutex (Some i) p) _ Hth)|done..|].
  - rewrite worker_step by done. unfold wait_for_work. rewrite Hth.
    cbn [mbind option_bind th_pc try_pop]. by rewrite Hm.
  - eapply stop_from_pred;
      [by rewrite Hh1|
       by apply (set_pc_lookup i WPred (set_mutex (Some i) p) _ Hth)|
       by rewrite Hd1].
Qed.

Lemma stop_from_wait i p jn :
  halted p = false → m_threads p !! i = Some (Thread WWait jn) →
  m_done p = true → m_mutex p = None → i ∉ m_condition p →
  stops_within 5 i p.
Proof.
  intros Hh Hth Hd Hm Hc.
  pose proof (set_pc_frame i WLock p)
    as (Hd1 & Hq1 & Hc1 & Hm1 & _ & Hl1 & _ & Hh1).
  eapply (stops_next _ _ _ (set_pc i WLock p));
    [|by apply (set_pc_threads i WLock p _ Hth)|done..|].
  - rewrite worker_step by done. unfold wait_for_work. rewrite Hth.
    cbn [mbind option_bind th_pc try_pop]. by rewrite bool_decide_eq_false_2.
  - eapply stop_from_lock;
      [by rewrite Hh1|by apply (set_pc_lookup i WLock p _ Hth)|
       by rewrite Hd1|by rewrite Hm1].
Qed.

Lemma stop_from_run i p jn tp h :
  halted p = false → m_threads p !! i = Some (Thread (WRun tp) jn) →
  run_me tp (heap p) = (h, None) →
  m_done p = true → m_mutex p = None → stops_within 2 i p.
Proof.
  intros Hh Hth Hr Hd Hm.
  pose proof (set_pc_frame i WLoop (set_heap h (emit (EvRun i tp) p)))
    as (Hd1 & Hq1 & Hc1 & Hm1 & _ & Hl1 & _ & Hh1).
  eapply (stops_next _ _ _ (set_pc i WLoop (set_heap h (emit (EvRun i tp) p))));
    [|by apply (set_pc_threads i WLoop (set_heap h (emit (EvRun i tp) p)) _ Hth)|
     done..|].
  - rewrite worker_step by done. unfold wait_for_work. rewrite Hth.
    cbn [mbind option_bind th_pc try_pop]. by rewrite Hr.
  - eapply stop_from_loop;
      [by rewrite Hh1|
       by apply (set_pc_lookup i WLoop (set_heap h (emit (EvRun i tp) p)) _ Hth)|
       by rewrite Hd1|by rewrite Hm1].
Qed.

Lemma stop_from_stopped i p jn :
  m_threads p !! i = Some (Thread WStopped jn) → m_mutex p = None →
  stops_within 0 i p.
Proof.
  intros Hth Hm. exists p, jn. split_and!; try done.
  by rewrite list_insert_id.
Qed.


Lemma stop_worker i p th :
  Inv p → halted p = false → m_done p = true →
  m_threads p !! i = Some th → th_pc th ≠ WBlock → th_pc th ≠ WPop →
  i ∉ m_condition p →
  m_mutex p = None ∨ m_mutex p = Some i →
  ∃ k, stops_within k i p.
Proof.
  intros (Hmi & _ & Hti & Hqi) Hh Hd Hth Hpc Hpp Hc Hm.
  destruct th as [pc jn]. cbn in Hpc, Hpp.
  destruct pc; try done.
  - destruct Hm as [Hm|Hm]; [by eexists; eapply stop_from_loop|].
    destruct (mi_owner _ Hmi _ Hm) as (th' & Hth' & Hhm). by simplify_eq.
  - destruct Hm as [Hm|Hm]; [by eexists; eapply stop_from_lock|].
    destruct (mi_owner _ Hmi _ Hm) as (th' & Hth' & Hhm). by simplify_eq.
  - by eexists; eapply stop_from_pred.
  - destruct Hm as [Hm|Hm]; [by eexists; eapply stop_from_wait|].
    destruct (mi_owner _ Hmi _ Hm) as (th' & Hth' & Hhm). by simplify_eq.
  - by eexists; eapply stop_from_check.
  - destruct Hm as [Hm|Hm].
    + pose proof (run_me_held _ _ _ _ Hti Hth eq_refl) as Hrun.
      eexists. by eapply stop_from_run.
    + destruct (mi_owner _ Hmi _ Hm) as (th' & Hth' & Hhm). by simplify_eq.
  - by destruct (qi_no_catch _ Hqi _ _ Hth).
  - destruct Hm as [Hm|Hm]; [by eexists; eapply stop_from_stopped|].
    destruct (mi_owner _ Hmi _ Hm) as (th' & Hth' & Hhm). by simplify_eq.
Qed.

Lemma halted_ctl p p' : ctl p' = ctl p → halted p' = halted p.
Proof. unfold halted. by intros ->. Qed.

Lemma stop_workers m : ∀ p,
  Inv p → halted p = false → m_done p = true → m_condition p = [] →
  m_mutex p = None →
  (∀ i th, m_threads p !! i = Some th → th_pc th ≠ WBlock) →
  ∃ ls p', exec ls p = Some p' ∧ Forall (λ l, own_step l = true) ls ∧
           (∀ i th, m_threads p' !! i = Some th → i < m → th_pc th = WStopped) ∧
           (∀ i th, m_threads p' !! i = Some th → th_pc th ≠ WBlock) ∧
           length (m_threads p') = length (m_threads p) ∧
           m_mutex p' = None ∧ m_done p' = true ∧ m_condition p' = [] ∧
           ctl p' = ctl p ∧ m_queue p' = m_queue p.
Proof.
  induction m as [|m IH]; intros p Hinv Hh Hd Hc Hm Hnb.
  - exists [], p. split_and!; try done. intros; lia.
  - destruct (IH p Hinv Hh Hd Hc Hm Hnb)
      as (ls1 & p1 & Hex1 & Hown1 & Hst1 & Hnb1 & Hlen1 & Hm1 & Hd1 & Hc1 & Hl1 & Hq1).
    destruct (m_threads p1 !! m) as [th|] eqn:Hth.
    + destruct (stop_worker m p1 th) as (k & p2 & jn & Hex2 & Hts2 & Hm2 & Hd2 & Hq2 & Hc2 & Hl2).
      { by eapply Inv_exec. }
      { by rewrite (halted_ctl _ _ Hl1). }
      { done. }
      { done. }
      { by eapply Hnb1. }
      { intros Hpc. assert (Inv p1) as (Hmi1 & _) by by eapply Inv_exec.
        pose proof (mi_holder _ Hmi1 _ _ Hth) as Hhm. rewrite Hpc in Hhm.
        specialize (Hhm eq_refl). congruence. }
      { rewrite Hc1. by intros ?%elem_of_nil. }
      { by left. }
      exists (ls1 ++ replicate k (LWorker m)), p2.
      split_and!; try congruence.
      * by rewrite exec_app, Hex1.
      * apply Forall_app_2; [done|]. by apply Forall_replicate.
      * intros i th' Hi Hlt. rewrite Hts2 in Hi. insert_cases Hi; [done|].
        eapply Hst1; [done|lia].
      * intros i th' Hi. rewrite Hts2 in Hi. insert_cases Hi; [done|].
        by eapply Hnb1.
      * by rewrite Hts2, length_insert.
    + exists ls1, p1. split_and!; try done.
      intros i th' Hi Hlt. destruct (decide (i = m)) as [->|]; [congruence|].
      eapply Hst1; [done|lia].
Qed.

Lemma join_all d : ∀ p k,
  ctl p = CJoin k → k + d = length (m_threads p) →
  (∀ i th, m_threads p !! i = Some th → th_pc th = WStopped) →
  ∃ p', exec (replicate (S d) LDestroy) p = Some p' ∧ ctl p' = CDestroyed ∧
        m_queue p' = m_queue p.
Proof.
  induction d as [|d IH]; intros p k Hl Hk Hst.
  - exists (set_ctl CDestroyed p). cbn [replicate exec].
    unfold step, halted, destroy. rewrite Hl.
    rewrite lookup_ge_None_2 by lia. done.
  - destruct (lookup_lt_is_Some_2 (m_threads p) k) as [[pc jn] Hth]; [lia|].
    pose proof (Hst _ _ Hth) as Hpc. cbn in Hpc. subst pc.
    change (replicate (S (S d)) LDestroy)
      with (LDestroy :: replicate (S d) (@LDestroy)).
    cbn [exec]. unfold step at 1, halted, destroy. rewrite Hl, Hth.
    cbn [th_joinable]. destruct jn.
    + unfold join. cbn [th_pc fmap option_fmap option_map mbind option_bind].
      destruct (IH (set_ctl (CJoin (S k))
                      (set_threads (<[k:=Thread WStopped false]> (m_threads p))
                         (emit (EvJoin k) p))) (S k)) as (p' & ? & ? & ?);
        pool_simpl; [done|rewrite length_insert; lia| |by exists p'].
      intros i th Hi. insert_cases Hi; [done|by eapply Hst].
    + cbn [mbind option_bind].
      destruct (IH (set_ctl (CJoin (S k)) p) (S k)) as (p' & ? & ? & ?);
        pool_simpl; [done|lia|done|by exists p'].
Qed.


(** The destructor first, then the holder of the mutex, then the other
    workers, then the joins.  A holder that has read the flag unset
    takes the head of the queue and runs it before it stops. *)
Lemma shutdown_from (n : nat) (p : pool) :
  reachable n p →
  ctl p = CLive →
  (∀ i th, m_threads p !! i = Some th → th_pc th ≠ WBlock) →
  ∃ ls' p' popped,
    exec ls' p = Some p' ∧ Forall (λ l, own_step l = true) ls' ∧
    ctl p' = CDestroyed ∧ length (m_threads p') = n ∧
    (∀ i th, m_threads p' !! i = Some th → th = Thread WStopped false) ∧
    m_queue p = popped ++ m_queue p' ∧ length popped ≤ 1 ∧
    ((∀ i th, m_threads p !! i = Some th → th_pc th ≠ WPop) → popped = []).
Proof.
  intros Hr Hl Hnb.
  assert (Inv p) as Hinv by by apply (Inv_reachable n).
  pose proof (reachable_num_threads _ _ Hr) as Hn.
  set (p2 := set_ctl (CJoin 0)
               (notify_all (set_ctl CNotify (set_done true (emit EvSetDone p))))).
  assert (exec [LDestroy; LDestroy] p = Some p2) as Hex2.
  { assert (step LDestroy p =
              Some (set_ctl CNotify (set_done true (emit EvSetDone p)))) as Hs1
      by (unfold step, halted, destroy; by rewrite Hl).
    cbn [exec]. by rewrite Hs1. }
  assert (Inv p2) as Hinv2 by by eapply Inv_exec.
  assert (halted p2 = false) as Hh2 by done.
  assert (∃ ls3 p3 popped,
            exec ls3 p2 = Some p3 ∧ Forall (λ l, own_step l = true) ls3 ∧
            m_mutex p3 = None ∧ m_done p3 = true ∧ m_condition p3 = [] ∧
            ctl p3 = CJoin 0 ∧ m_queue p = popped ++ m_queue p3 ∧
            length popped ≤ 1 ∧
            ((∀ i th, m_threads p !! i = Some th → th_pc th ≠ WPop) →
             popped = []) ∧
            (∀ i th, m_threads p3 !! i = Some th → th_pc th ≠ WBlock))
    as (ls3 & p3 & popped & Hex3 & Hown3 & Hm3 & Hd3 & Hc3 & Hl3 & Hq3 &
        Hpl & Hpn & Hnb3).
  { destruct (m_mutex p) as [j|] eqn:Hm.
    - destruct Hinv as (Hmi & _).
      destruct (mi_owner _ Hmi _ Hm) as ([pc jn] & Hth & _).
      assert (pc = WPop ∨ pc ≠ WPop) as [->|Hnp]
        by (destruct pc; first [by left|by right]).
      + destruct (m_queue p) as [|tp q] eqn:Hqu;
          [by destruct (mi_pop _ Hmi _ _ Hth eq_refl)|].
        set (p2' := set_pc j (WRun tp)
                      (set_mutex None (set_queue q (emit (EvPop j tp) p2)))).
        assert (step (LWorker j) p2 = Some p2') as Hs.
        { rewrite worker_step by done. unfold wait_for_work.
          change (m_threads p2) with (m_threads p). rewrite Hth.
          cbn [mbind option_bind th_pc try_pop].
          change (m_queue p2) with (m_queue p). by rewrite Hqu. }
        pose proof (set_pc_frame j (WRun tp)
                      (set_mutex None (set_queue q (emit (EvPop j tp) p2))))
          as (Hd1 & Hq1 & Hc1 & Hm1 & _ & Hl1 & _ & Hh1).
        fold p2' in Hd1, Hq1, Hc1, Hm1, Hl1, Hh1.
        assert (m_threads p2' !! j = Some (Thread (WRun tp) jn)) as Hth'.
        { apply (set_pc_lookup j (WRun tp)
                   (set_mutex None (set_queue q (emit (EvPop j tp) p2))) _ Hth). }
        assert (m_threads p2' = <[j:=Thread (WRun tp) jn]> (m_threads p)) as Hts'.
        { apply (set_pc_threads j (WRun tp)
                   (set_mutex None (set_queue q (emit (EvPop j tp) p2))) _ Hth). }
        destruct (stop_worker j p2' (Thread (WRun tp) jn))
          as (k & p3 & jn' & Hex3 & Hts3 & Hm3 & Hd3 & Hq3 & Hc3 & Hl3);
          [by apply (Inv_step (LWorker j) p2)|by rewrite Hh1|by rewrite Hd1|
           done|done|done|by rewrite Hc1; intros ?%elem_of_nil|
           by left; rewrite Hm1|].
        exists (LWorker j :: replicate k (LWorker j)), p3, [tp].
        split_and!.
        * cbn [exec]. by rewrite Hs.
        * constructor; [done|]. by apply Forall_replicate.
        * done.
        * by rewrite Hd3, Hd1.
        * by rewrite Hc3, Hc1.
        * by rewrite Hl3, Hl1.
        * by rewrite Hq3, Hq1.
        * done.
        * intros Hnp. by destruct (Hnp _ _ Hth).
        * intros i th' Hi. rewrite Hts3, Hts', list_insert_insert_eq in Hi.
          insert_cases Hi; [done|]. by eapply Hnb.
      + destruct (stop_worker j p2 (Thread pc jn))
          as (k & p3 & jn' & Hex3 & Hts3 & Hm3 & Hd3 & Hq3 & Hc3 & Hl3);
          [done|done|done|done|by apply (Hnb _ _ Hth)|done|
           by intros ?%elem_of_nil|by right|].
        exists (replicate k (LWorker j)), p3, [].
        split_and!; try done; [by apply Forall_replicate| |].
        { cbn. lia. }
        intros i th' Hi. rewrite Hts3 in Hi. insert_cases Hi; [done|].
        by eapply Hnb.
    - exists [], p2, []. split_and!; try done. cbn. lia. }
  destruct (stop_workers (length (m_threads p3)) p3)
    as (ls4 & p4 & Hex4 & Hown4 & Hst4 & _ & Hlen4 & _ & _ & _ & Hl4 & Hq4);
    [by eapply Inv_exec|by apply halted_ctl with (p:=p2); rewrite Hl3|done..|].
  rewrite <-Hq4 in Hq3.
  destruct (join_all (length (m_threads p4)) p4 0) as (p5 & Hex5 & Hl5 & Hq5);
    [congruence|done| |].
  { intros i th Hi. eapply Hst4; [done|]. rewrite <-Hlen4.
    by eapply lookup_lt_Some. }
  assert (exec ([LDestroy; LDestroy] ++ ls3 ++ ls4 ++
                replicate (S (length (m_threads p4))) LDestroy) p = Some p5)
    as Hex'.
  { rewrite exec_app, Hex2. cbn [mbind option_bind].
    rewrite exec_app, Hex3. cbn [mbind option_bind].
    by rewrite exec_app, Hex4. }
  eexists _, p5, popped. split; [exact Hex'|].
  assert (Inv p5) as (_ & Hci & _) by apply (Inv_exec _ _ _ Hinv Hex').
  unfold ctl_inv in Hci. rewrite Hl5 in Hci.
  destruct Hci as (Hlen5 & _ & _ & Hjb).
  assert (num_threads p5 = n) as Hn5.
  { apply reachable_num_threads. by eapply reachable_exec. }
  split_and!; [|done|congruence| |congruence|done|done].
  - repeat apply Forall_app_2; try done.
    + by repeat constructor.
    + by apply Forall_replicate.
  - intros i th Hi. eapply Hjb; [|done]. rewrite <-Hlen5.
    by eapply lookup_lt_Some.
Qed.

(** X13. [destroy] can return.  From every reachable state of a
    constructed pool in which no worker is between the predicate that it
    found false and the [wait], the destructor and the workers alone
    (no further [submit], no spurious wake-up) have a schedule after
    which [destroy] has returned: the flag is set, [destroy] has
    notified once and joined the threads in index order, every worker
    is out of [wait_for_work] and joined.  Tasks that are still queued
    stay in the queue, with one exception: a worker that had read the
    flag unset (line 151) before [destroy] set it takes the head of the
    queue, so at most one task leaves the queue, and none when no
    worker is at that point. *)
Theorem X13_destroy_can_return (n : nat) (ls : list label) (p : pool) :
  exec ls (init n) = Some p →
  ctl p = CLive →
  (∀ i th, m_threads p !! i = Some th → th_pc th ≠ WBlock) →
  ∃ ls' p', exec ls' p = Some p' ∧ Forall (λ l, own_step l = true) ls' ∧
            ctl p' = CDestroyed ∧ m_done p' = true ∧
            destroy_log (trace p') = destroy_prefix n ∧
            length (m_threads p') = n ∧
            (∀ i th, m_threads p' !! i = Some th → th = Thread WStopped false) ∧
            ∃ popped, m_queue p = popped ++ m_queue p' ∧ length popped ≤ 1 ∧
                      ((∀ i th, m_threads p !! i = Some th →
                                th_pc th ≠ WPop) → popped = []).
Proof.
  intros Hex Hl Hnb.
  assert (reachable n p) as Hr by by exists ls.
  destruct (shutdown_from n p Hr Hl Hnb)
    as (ls' & p' & popped & Hex' & Hown & Hl' & Hlen & Hst & Hq).
  exists ls', p'.
  assert (reachable n p') as Hr' by by eapply reachable_exec.
  pose proof (reachable_num_threads _ _ Hr') as Hn.
  assert (Inv p') as (_ & Hc & _) by by apply (Inv_reachable n).
  unfold ctl_inv in Hc. rewrite Hl', Hn in Hc.
  destruct Hc as (_ & Hd & Hlog & _). split_and!; try done. by exists popped.
Qed.

(** ** A wake-up of [destroy] that is lost *)

Lemma left_behind_step i l p p' :
  Inv p → left_behind i p → own_step l = true → step l p = Some p' →
  left_behind i p'.
Proof.
  intros (Hmi & _ & Hti & _) (Hd & Hc & Hth & k & Hl & Hk) Hown H.
  unfold left_behind. step_cases H; try discriminate Hown.
  all: try (match goal with
            | Hr : run_me _ _ = _, Hw : m_threads _ !! _ = Some _ |- _ =>
                rewrite (run_me_held _ _ _ _ Hti Hw eq_refl) in Hr;
                simplify_eq
            end).
  all: split_and!; try done; try congruence.
  all: try (apply elem_of_app; by left).
  all: try (rewrite list_lookup_insert_ne; [done|]; intros ->; simplify_eq;
            try done; by case_bool_decide).
  all: try (by exists k).
  - exists (S k). split; [done|]. destruct (decide (k = i)) as [->|]; [|lia].
    by simplify_eq.
  - exists (S k). split; [done|]. destruct (decide (k = i)) as [->|]; [|lia].
    by simplify_eq.
  - apply lookup_lt_Some in Hth.
    match goal with Hn : _ !! k = None |- _ => apply lookup_ge_None in Hn end.
    lia.
  - exfalso. eapply (mi_pop _ Hmi); eauto.
Qed.

Lemma left_behind_exec i ls p p' :
  Inv p → left_behind i p → Forall (λ l, own_step l = true) ls →
  exec ls p = Some p' → left_behind i p'.
Proof.
  revert p. induction ls as [|l ls IH]; intros p Hinv Hlb Hown H; cbn in H.
  - by simplify_eq.
  - destruct (step l p) as [p1|] eqn:Hst; [|done]. cbn in H.
    apply Forall_cons in Hown as [Hl Hown].
    eapply IH; [by eapply Inv_step|by eapply left_behind_step|done|done].
Qed.

(** X14. A wake-up of [destroy] can be lost.  [destroy] sets the flag
    and notifies without holding the mutex.  If it does so while a
    worker is between the predicate that it found false and the [wait],
    the worker blocks after the broadcast; from then on, whatever the
    owner and the workers do, that worker stays blocked with the flag
    set and [destroy] does not return.  (Only a spurious wake-up or the
    [notify_one] of a later [submit] can wake the worker.) *)
Theorem X14_destroy_can_wait_forever (n : nat) (ls : list label) (p : pool)
    (i : nat) (th : thread) :
  exec ls (init n) = Some p →
  ctl p = CLive →
  m_threads p !! i = Some th → th_pc th = WBlock →
  ∃ p1, exec [LDestroy; LDestroy; LWorker i] p = Some p1 ∧
        left_behind i p1 ∧
        ∀ ls' p', Forall (λ l, own_step l = true) ls' →
                  exec ls' p1 = Some p' →
                  left_behind i p' ∧ ctl p' ≠ CDestroyed ∧
                  step (LWorker i) p' = None.
Proof.
  intros Hex Hl Hth Hpc.
  assert (reachable n p) as Hr by by eexists.
  assert (Inv p) as Hinv by by apply (Inv_reachable n).
  destruct th as [pc jn]. cbn in Hpc. subst pc.
  assert (jn = true) as ->.
  { destruct Hinv as (_ & Hci & _). unfold ctl_inv in Hci. rewrite Hl in Hci.
    destruct Hci as (_ & _ & _ & Hj). apply (Hj i _ (Nat.le_0_l i) Hth). }
  set (p2 := set_ctl (CJoin 0)
               (notify_all (set_ctl CNotify (set_done true (emit EvSetDone p))))).
  set (p3 := set_pc i WWait
               (set_mutex None (set_condition (m_condition p2 ++ [i]) p2))).
  assert (exec [LDestroy; LDestroy; LWorker i] p = Some p3) as Hex3.
  { assert (step LDestroy p =
              Some (set_ctl CNotify (set_done true (emit EvSetDone p)))) as Hs1
      by (unfold step, halted, destroy; by rewrite Hl).
    cbn [exec]. rewrite Hs1. cbn [mbind option_bind].
    assert (step LDestroy (set_ctl CNotify (set_done true (emit EvSetDone p))) =
              Some p2) as Hs2 by done.
    rewrite Hs2. cbn [mbind option_bind].
    rewrite worker_step by done. unfold wait_for_work.
    change (m_threads p2) with (m_threads p). rewrite Hth. done. }
  assert (left_behind i p3) as Hlb.
  { unfold left_behind, p3.
    pose proof (set_pc_frame i WWait
                  (set_mutex None (set_condition (m_condition p2 ++ [i]) p2)))
      as (Hd1 & _ & Hc1 & _ & _ & Hl1 & _).
    rewrite Hd1, Hc1, Hl1.
    split_and!; [done| | |by exists 0; split; [|lia]].
    - apply elem_of_app. right. by apply list_elem_of_singleton.
    - apply (set_pc_lookup i WWait
               (set_mutex None (set_condition (m_condition p2 ++ [i]) p2))
               _ Hth). }
  exists p3. split_and!; [done..|].
  intros ls' p' Hown Hex'.
  assert (Inv p3) as Hinv3 by apply (Inv_exec _ _ _ Hinv Hex3).
  pose proof (left_behind_exec _ _ _ _ Hinv3 Hlb Hown Hex') as Hlb'.
  split; [done|]. destruct Hlb' as (Hd' & Hc' & Hth' & k & Hl' & Hk).
  split; [congruence|].
  unfold step, halted. rewrite Hl'. unfold wait_for_work. rewrite Hth'.
  cbn [mbind option_bind th_pc try_pop]. by rewrite bool_decide_eq_true_2.
Qed.

(** ** Every task is run before the pool is destroyed *)

Lemma drain (n m : nat) : ∀ p,
  reachable n p → ctl p = CLive → 0 < n → length (m_queue p) = m →
  (∀ i th, m_threads p !! i = Some th → th_pc th ≠ WBlock) →
  ∃ ls' p', exec ls' p = Some p' ∧ Forall (λ l, own_step l = true) ls' ∧
            ctl p' = CLive ∧ m_queue p' = [] ∧
            (∀ i th, m_threads p' !! i = Some th → th_pc th ≠ WBlock).
Proof.
  induction m as [|m IH]; intros p Hr Hl Hn Hlen Hnb.
  - exists [], p. split_and!; try done. by apply nil_length_inv.
  - destruct Hr as [ls Hex].
    destruct (constructed_thread_count _ _ _ Hex Hl) as (Hlts & Hd & _).
    assert (reachable n p) as Hr by by exists ls.
    destruct (some_worker_takes_head p)
      as (i & k & Hk & Hlt & p1 & tp & jn & Hex1 & Hq1 & Hp1 & Hts1 & Hd1 & Hl1);
      [by apply (Inv_reachable n)|by apply (wake_inv_reachable n)|
       by unfold halted; rewrite Hl|done| |by apply (not_stopped n)| |].
    { intros Hts. rewrite Hts in Hlts. cbn in Hlts. lia. }
    { intros Hq. rewrite Hq in Hlen. done. }
    destruct (IH p1) as (ls2 & p2 & Hex2 & Hown2 & Hl2 & Hq2 & Hnb2).
    { by eapply reachable_exec. }
    { congruence. }
    { done. }
    { rewrite Hq1 in Hlen. cbn in Hlen. lia. }
    { intros j th Hj. rewrite Hts1 in Hj. insert_cases Hj; [done|].
      by eapply Hnb. }
    exists (replicate k (LWorker i) ++ ls2), p2. split_and!; try done.
    + by rewrite exec_app, Hex1.
    + apply Forall_app_2; [|done]. by apply Forall_replicate.
Qed.

(** X15. The pool can finish its work.  From every reachable state of a
    constructed pool with at least one thread in which no worker is
    between the predicate that it found false and the [wait], the
    workers and the destructor alone have a schedule after which the
    queue is empty, every task that was ever submitted has been run
    exactly once and its shared state holds the result of its closure,
    and [destroy] has returned. *)
Theorem X15_drain_and_shutdown (n : nat) (ls : list label) (p : pool) :
  exec ls (init n) = Some p →
  ctl p = CLive → 0 < n →
  (∀ i th, m_threads p !! i = Some th → th_pc th ≠ WBlock) →
  ∃ ls' p', exec ls' p = Some p' ∧ Forall (λ l, own_step l = true) ls' ∧
            ctl p' = CDestroyed ∧ m_queue p' = [] ∧
            runs (trace p') ≡ₚ pushes (trace p') ∧
            NoDup (task_state <$> runs (trace p')) ∧
            ∀ tp, tp ∈ pushes (trace p) →
                  tp ∈ runs (trace p') ∧
                  heap p' !! task_state tp = Some (task_result tp).
Proof.
  intros Hex Hl Hn Hnb.
  assert (reachable n p) as Hr by by eexists.
  destruct (drain n (length (m_queue p)) p)
    as (ls1 & p1 & Hex1 & Hown1 & Hl1 & Hq1 & Hnb1); [done..|].
  destruct (shutdown_from n p1)
    as (ls2 & p2 & popped & Hex2 & Hown2 & Hl2 & Hlen2 & Hst2 & Hq2 & _);
    [by eapply reachable_exec|done..|].
  assert (exec (ls1 ++ ls2) p = Some p2) as Hex' by by rewrite exec_app, Hex1.
  assert (reachable n p2) as Hr2 by by eapply reachable_exec.
  destruct Hr2 as [ls0 Hex0].
  assert (Inv p2) as (_ & _ & Hti & _) by (apply (Inv_reachable n); by eexists).
  assert (held_tasks (m_threads p2) = []) as Hheld.
  { unfold held_tasks. apply elem_of_nil_inv. intros tp Htp.
    apply list_elem_of_omap in Htp as (th & (j & Hj)%list_elem_of_lookup & Hpc).
    rewrite (Hst2 _ _ Hj) in Hpc. done. }
  pose proof (popped_run_or_held _ _ _ Hex0) as Hperm.
  rewrite Hheld, app_nil_r in Hperm.
  assert (m_queue p2 = []) as Hq2'.
  { rewrite Hq1 in Hq2. destruct popped; [done|discriminate Hq2]. }
  pose proof (ti_fifo _ Hti) as Hfifo. rewrite Hq2', app_nil_r in Hfifo.
  assert (runs (trace p2) ≡ₚ pushes (trace p2)) as Hrp by by rewrite Hfifo.
  exists (ls1 ++ ls2), p2. split_and!; try done.
  - by apply Forall_app_2.
  - rewrite Hrp. apply (ti_nodup _ Hti).
  - intros tp Htp.
    assert (tp ∈ runs (trace p2)) as Hrun.
    { rewrite Hrp. destruct (exec_frame _ _ _ Hex') as (_ & _ & es & ->).
      unfold pushes. rewrite omap_app. apply elem_of_app. by left. }
    split; [done|]. by apply (ti_ready _ Hti).
Qed.


End Pool.

Arguments PackagedTask {ty tyD t} pt_fn pt_state.
Arguments pt_fn {ty tyD t} p _.
Arguments pt_state {ty tyD t} p.
Arguments MkTask {ty tyD t} m_task.
Arguments m_task {ty tyD t} _.
Arguments Future {ty t} fut_state.
Arguments fut_state {ty t} f.
Arguments set_pc {ty tyD} i pc p.
Arguments set_done {ty tyD} b p.
Arguments set_queue {ty tyD} q p.
Arguments set_threads {ty tyD} ts p.
Arguments set_condition {ty tyD} ws p.
Arguments set_mutex {ty tyD} m p.
Arguments set_heap {ty tyD} h p.
Arguments set_ctl {ty tyD} c p.
Arguments emit {ty tyD} e p.
Arguments print {ty tyD} s p.
Arguments after {ty tyD A} r.
Arguments join {ty tyD} k th p.
Arguments LCtor {ty tyD} ok.
Arguments LDestroy {ty tyD}.
Arguments LSubmit {ty tyD} t {A} flt k func args.
Arguments LWorker {ty tyD} i.
Arguments LSpurious {ty tyD} i.
Arguments WLoop {ty tyD}.
Arguments WLock {ty tyD}.
Arguments WPred {ty tyD}.
Arguments WBlock {ty tyD}.
Arguments WWait {ty tyD}.
Arguments WCheck {ty tyD}.
Arguments WPop {ty tyD}.
Arguments WRun {ty tyD} tp.
Arguments WCatch {ty tyD}.
Arguments WStopped {ty tyD}.
Arguments Thread {ty tyD} th_pc th_joinable.
Arguments th_pc {ty tyD} t.
Arguments th_joinable {ty tyD} t.
Arguments m_done {ty tyD} p.
Arguments m_queue {ty tyD} p.
Arguments m_threads {ty tyD} p.
Arguments m_condition {ty tyD} p.
Arguments m_mutex {ty tyD} p.
Arguments heap {ty tyD} p.
Arguments stdout {ty tyD} p.
Arguments num_threads {ty tyD} p.
Arguments ctl {ty tyD} p.
Arguments trace {ty tyD} p.
Arguments EvSpawn {ty tyD} i.
Arguments EvPush {ty tyD} tp.
Arguments EvPop {ty tyD} w tp.
Arguments EvRun {ty tyD} w tp.
Arguments EvSetDone {ty tyD}.
Arguments EvNotifyAll {ty tyD} woken.
Arguments EvJoin {ty tyD} k.
Arguments Ok {ty tyD A} a p.
Arguments Raise {ty tyD A} e p.
Arguments Blocked {ty tyD A}.
Arguments future_get {ty _ tyD t} fut h.
Arguments get_future {ty tyD t} task.
Arguments run_me {ty tyD} tp h.
Arguments task_state {ty tyD} tp.
Arguments task_ty {ty tyD} tp.
Arguments task_result {ty tyD} tp.
Arguments submit {ty tyD t A} flt k func args p.
Arguments make_task {ty tyD t A} flt func args p.
Arguments add_task {ty tyD t} flt k task p.
Arguments wait_pred {ty tyD} p.
Arguments try_pop {ty tyD} i pc p.
Arguments wait_for_work {ty tyD} i p.
Arguments spurious_wake {ty tyD} i p.
Arguments ThreadPool_ctor {ty tyD} ok p.
Arguments ctor_catch {ty tyD} p.
Arguments destroy {ty tyD} p.
Arguments notify_all {ty tyD} p.
Arguments step {ty tyD} l p.
Arguments exec {ty tyD} ls p.
Arguments reachable {ty tyD} n p.
Arguments halted {ty tyD} p.
Arguments accepts {ty tyD} p.
Arguments pushes {ty tyD} tr.
Arguments pops {ty tyD} tr.
Arguments runs {ty tyD} tr.
Arguments ran {ty tyD} p.
Arguments destroy_log {ty tyD} tr.
Arguments new_task {ty tyD t A} func args p.
Arguments pushed {ty tyD t A} k func args p.
Arguments empty_cell {ty tyD} t.

(** * The example runs

    The theorems at work on a pool whose tasks are [square], [boom] and
    [throw_int]. *)

Lemma C1_witness :
  pushes (trace (state_after rtyD 1 (two_pushed_one_run rtyD square 7%Z boom tt))) =
    pops (trace (state_after rtyD 1 (two_pushed_one_run rtyD square 7%Z boom tt))) ++
    m_queue (state_after rtyD 1 (two_pushed_one_run rtyD square 7%Z boom tt)) ∧
  length (pops (trace (state_after rtyD 1 (two_pushed_one_run rtyD square 7%Z boom tt)))) = 1 ∧
  length (m_queue (state_after rtyD 1 (two_pushed_one_run rtyD square 7%Z boom tt))) = 1.
Proof.
  split; [|split; vm_compute; reflexivity].
  apply (C1_queue_is_fifo rtyD 1 (two_pushed_one_run rtyD square 7%Z boom tt)).
  vm_compute. reflexivity.
Defined.

Lemma C7_witness :
  m_done (state_after rtyD 1 (construction rtyD 1 ++ [LDestroy; LWorker 0; LDestroy])) = true.
Proof.
  apply (C7_done_never_reverts rtyD 1 (construction rtyD 1) [LWorker 0; LDestroy]
           (state_after rtyD 1 (construction rtyD 1))
           (state_after rtyD 1 (construction rtyD 1 ++ [LDestroy])));
    vm_compute; reflexivity.
Defined.




Lemma C6_witness :
  ∃ p', submit push_fails 0 square 7%Z (state_after rtyD 1 (construction rtyD 1)) =
          Raise (ThreadPoolException adding_task_failed) p' ∧
        m_queue p' = m_queue (state_after rtyD 1 (construction rtyD 1)).
Proof.
  pose proof (C6_failed_submit_changes_nothing rtyD push_fails 0 square 7%Z
                (state_after rtyD 1 (construction rtyD 1)) eq_refl) as H.
  destruct (submit push_fails 0 square 7%Z (state_after rtyD 1 (construction rtyD 1)))
    as [fut p'|e p'|] eqn:Hs; [done| |vm_compute in Hs; discriminate Hs].
  destruct H as (-> & Hq & _). by exists p'.
Defined.

Lemma C8_witness :
  destroy_log (trace (state_after rtyD 1 (construction rtyD 1 ++ destruction1 rtyD))) =
    [DSetDone; DNotifyAll; DJoin 0] ∧
  m_threads (state_after rtyD 1 (construction rtyD 1 ++ destruction1 rtyD)) =
    [Thread WStopped false].
Proof.
  destruct (C8_destroy_order rtyD 1 (construction rtyD 1 ++ destruction1 rtyD)
              (state_after rtyD 1 (construction rtyD 1 ++ destruction1 rtyD)))
    as (_ & _ & _ & Hd); [vm_compute; reflexivity|].
  destruct Hd as (Hlog & Hlen & Hall); [vm_compute; reflexivity|].
  split; [exact Hlog|]. vm_compute. reflexivity.
Defined.

Lemma C9_witness :
  future_get (Future 0 : future RUnit)
    (heap (state_after rtyD 1 (one_task_run rtyD throw_int tt))) =
  Some (Threw (Foreign 42)).
Proof.
  destruct (C9_failures_stay_in_the_future rtyD 1 (construction rtyD 1)
              (state_after rtyD 1 (construction rtyD 1))) as (_ & _ & Hfut);
    [vm_compute; reflexivity|].
  apply (Hfut RUnit unit throw_int tt no_faults 0 (Future 0)
           (pushed 0 throw_int tt (state_after rtyD 1 (construction rtyD 1)))
           (serving rtyD 0));
    [vm_compute; reflexivity..|].
  vm_compute. apply list_elem_of_here.
Defined.

Lemma C10_witness :
  m_threads (state_after rtyD 0
               (construction rtyD 0 ++ [LSubmit RInt no_faults 0 square 7%Z])) = [] ∧
  runs (trace (state_after rtyD 0
                 (construction rtyD 0 ++ [LSubmit RInt no_faults 0 square 7%Z]))) = [] ∧
  length (m_queue (state_after rtyD 0
                     (construction rtyD 0 ++ [LSubmit RInt no_faults 0 square 7%Z]))) = 1 ∧
  (∃ (fut : future RInt) p',
     submit no_faults 0 square 7%Z
       (state_after rtyD 0
          (construction rtyD 0 ++ [LSubmit RInt no_faults 0 square 7%Z])) =
       Ok fut p' ∧
     heap p' !! fut_state fut = Some (empty_cell RInt) ∧
     length (m_queue p') = 2) ∧
  ∃ p', exec [LDestroy; LDestroy; LDestroy]
          (state_after rtyD 0
             (construction rtyD 0 ++ [LSubmit RInt no_faults 0 square 7%Z])) = Some p' ∧
        ctl p' = CDestroyed.
Proof.
  destruct (C10_zero_threads rtyD true true
              (construction rtyD 0 ++ [LSubmit RInt no_faults 0 square 7%Z])
              (state_after rtyD 0
                 (construction rtyD 0 ++ [LSubmit RInt no_faults 0 square 7%Z])))
    as (_ & H).
  destruct H as (Hth & _ & Hruns & _ & _ & Hlive); [vm_compute; reflexivity|].
  destruct Hlive as (Hsub & Hd); [vm_compute; reflexivity|].
  split_and!; [exact Hth|exact Hruns|vm_compute; reflexivity| |exact Hd].
  destruct (Hsub RInt Z square 7%Z 0)
    as (fut & p' & task & Hs & _ & _ & _ & _ & Hq & _ & Hcell & _).
  exists fut, p'. split_and!; [exact Hs|exact Hcell|].
  rewrite Hq. vm_compute. reflexivity.
Defined.

(** ** The handler that never runs *)

(** C3. A pool of one thread runs a task whose callable throws
    [std::runtime_error("boom")].  The failure reaches the future and
    the worker is back at the head of its loop; but after every step of
    the run nothing is printed and the worker is not in its handler: the
    diagnostic that the claim describes does not appear. *)
Theorem C3_failing_task_prints_nothing :
  exec (one_task_run rtyD boom tt) (init rtyD 1) =
    Some (state_after rtyD 1 (one_task_run rtyD boom tt)) ∧
  forallb (λ k, silent rtyD (state_after rtyD 1 (take k (one_task_run rtyD boom tt))))
    (seq 0 (S (length (one_task_run rtyD boom tt)))) = true ∧
  future_get (Future 0 : future RUnit)
    (heap (state_after rtyD 1 (one_task_run rtyD boom tt))) =
    Some (Threw (StdException "boom")) ∧
  stdout (state_after rtyD 1 (one_task_run rtyD boom tt)) = [] ∧
  m_threads (state_after rtyD 1 (one_task_run rtyD boom tt)) = [Thread WLoop true] ∧
  ctl (state_after rtyD 1 (one_task_run rtyD boom tt)) = CLive.
Proof. vm_compute. done. Qed.

(** ** The constructor that fails half way *)

(** C4. The constructor of a pool of two threads, when creating the
    second thread fails: the process is terminated, the shutdown flag
    was never set, nothing of [destroy] has run, and the first worker
    was neither stopped nor joined.  (When already the first creation
    fails, the constructor throws [constructor_failed] and no thread
    exists.) *)
Theorem C4_failed_construction_terminates :
  exec [LCtor true; LCtor true; LCtor false] (init rtyD 2) =
    Some (state_after rtyD 2 [LCtor true; LCtor true; LCtor false]) ∧
  ctl (state_after rtyD 2 [LCtor true; LCtor true; LCtor false]) = CTerminated ∧
  m_done (state_after rtyD 2 [LCtor true; LCtor true; LCtor false]) = false ∧
  destroy_log (trace (state_after rtyD 2 [LCtor true; LCtor true; LCtor false])) = [] ∧
  m_threads (state_after rtyD 2 [LCtor true; LCtor true; LCtor false]) =
    [Thread WLoop true] ∧
  ctl (state_after rtyD 2 [LCtor true; LCtor false]) =
    CCtorFailed (ThreadPoolException constructor_failed) ∧
  m_threads (state_after rtyD 2 [LCtor true; LCtor false]) = [].
Proof. vm_compute. done. Qed.

(** ** A wake-up that is lost *)

(** [destroy] sets the flag and notifies without holding the mutex.  In
    this run the only worker has seen the predicate false and blocks
    after the broadcast: neither the worker nor the join of [destroy]
    can take a step, although the flag is set.  Only a spurious wake-up
    or the [notify_one] of a later [submit] lets the worker go on. *)
Remark destroy_may_wait_for_a_blocked_worker :
  exec (lost_wakeup rtyD) (init rtyD 1) = Some (state_after rtyD 1 (lost_wakeup rtyD)) ∧
  m_done (state_after rtyD 1 (lost_wakeup rtyD)) = true ∧
  ctl (state_after rtyD 1 (lost_wakeup rtyD)) = CJoin 0 ∧
  m_condition (state_after rtyD 1 (lost_wakeup rtyD)) = [0] ∧
  step (LWorker 0) (state_after rtyD 1 (lost_wakeup rtyD)) = None ∧
  step LDestroy (state_after rtyD 1 (lost_wakeup rtyD)) = None.
Proof. vm_compute. done. Qed.

(** ** The further properties at work *)

Lemma X1_witness :
  submit no_faults 0 square 7%Z (state_after rtyD 1 (about_to_pop rtyD square 7%Z)) =
  Blocked.
Proof.
  destruct (X1_mutual_exclusion rtyD 1 (about_to_pop rtyD square 7%Z)
              (state_after rtyD 1 (about_to_pop rtyD square 7%Z)))
    as (_ & _ & Hb); [vm_compute; reflexivity|].
  apply (Hb 0 (Thread WPop true)); vm_compute; reflexivity.
Defined.

Lemma X2_witness :
  ∃ tp q p',
    m_queue (state_after rtyD 1 (about_to_pop rtyD square 7%Z)) = tp :: q ∧
    wait_for_work 0 (state_after rtyD 1 (about_to_pop rtyD square 7%Z)) = Some p' ∧
    m_queue p' = q ∧
    ctl p' = ctl (state_after rtyD 1 (about_to_pop rtyD square 7%Z)).
Proof.
  destruct (X2_front_of_nonempty_queue rtyD 1 (about_to_pop rtyD square 7%Z)
              (state_after rtyD 1 (about_to_pop rtyD square 7%Z)))
    as (_ & _ & Hf); [vm_compute; reflexivity|].
  destruct (Hf 0 (Thread WPop true)) as (tp & q & p' & Hq & Hs & Hq' & Hl & _);
    [vm_compute; reflexivity..|].
  by exists tp, q, p'.
Defined.

Lemma X3_witness :
  NoDup (task_state <$>
         runs (trace (state_after rtyD 1
                        (two_pushed_one_run rtyD square 7%Z boom tt ++
                         serving rtyD 0)))) ∧
  task_state <$>
    runs (trace (state_after rtyD 1
                   (two_pushed_one_run rtyD square 7%Z boom tt ++
                    serving rtyD 0))) = [0; 1] ∧
  new_task boom tt
    (state_after rtyD 1
       (construction rtyD 1 ++ [LSubmit RInt no_faults 0 square 7%Z])) ∈
    pushes (trace (state_after rtyD 1
                     (two_pushed_one_run rtyD square 7%Z boom tt ++
                      serving rtyD 0))).
Proof.
  destruct (X3_run_at_most_once rtyD 1
              (two_pushed_one_run rtyD square 7%Z boom tt ++ serving rtyD 0)
              (state_after rtyD 1
                 (two_pushed_one_run rtyD square 7%Z boom tt ++ serving rtyD 0)))
    as (Hnd & Hpop & Hpush); [vm_compute; reflexivity|].
  split_and!; [exact Hnd|vm_compute; reflexivity|].
  apply Hpush, Hpop. vm_compute. apply list_elem_of_further, list_elem_of_here.
Defined.

Lemma X4_witness :
  ∃ p', wait_for_work 0
          (state_after rtyD 1
             (about_to_pop rtyD square 7%Z ++ [LWorker 0])) = Some p' ∧
        length (runs (trace p')) = 1.
Proof.
  destruct (X4_popped_tasks_are_run rtyD 1
              (about_to_pop rtyD square 7%Z ++ [LWorker 0])
              (state_after rtyD 1 (about_to_pop rtyD square 7%Z ++ [LWorker 0])))
    as (_ & Hrun); [vm_compute; reflexivity|].
  destruct (Hrun 0 (Thread (WRun (new_task square 7%Z
                                   (state_after rtyD 1 (construction rtyD 1)))) true)
              (new_task square 7%Z (state_after rtyD 1 (construction rtyD 1))))
    as (p' & Hstep & Hruns & _); [vm_compute; reflexivity..|].
  exists p'. split; [exact Hstep|]. rewrite Hruns. vm_compute. reflexivity.
Defined.

Lemma X5_witness :
  m_condition (state_after rtyD 2 (two_blocked_one_woken rtyD square 7%Z)) = [1] ∧
  (∃ th, m_threads (state_after rtyD 2 (two_blocked_one_woken rtyD square 7%Z)) !! 1 =
           Some th ∧ th_pc th = WWait) ∧
  ∃ i th, m_threads (state_after rtyD 2 (two_blocked_one_woken rtyD square 7%Z)) !! i =
            Some th ∧
          i ∉ m_condition (state_after rtyD 2 (two_blocked_one_woken rtyD square 7%Z)).
Proof.
  destruct (X5_no_lost_wakeup_on_submit rtyD 2
              (two_blocked_one_woken rtyD square 7%Z)
              (state_after rtyD 2 (two_blocked_one_woken rtyD square 7%Z)))
    as (_ & Hwt & _ & Hawake);
    [vm_compute; reflexivity|vm_compute; discriminate|].
  split_and!; [vm_compute; reflexivity| |].
  - apply Hwt. vm_compute. apply list_elem_of_here.
  - apply Hawake. vm_compute. discriminate.
Defined.

Lemma X6_witness :
  length (m_threads (state_after rtyD 1 (about_to_pop rtyD square 7%Z))) = 1.
Proof.
  destruct (X6_workers_stay_until_shutdown rtyD 1 (about_to_pop rtyD square 7%Z)
              (state_after rtyD 1 (about_to_pop rtyD square 7%Z)))
    as (_ & Hlen & _); [vm_compute; reflexivity..|].
  apply Hlen. vm_compute. reflexivity.
Defined.

Lemma X7_witness :
  ∃ h', run_me (existT RInt (MkTask (PackagedTask (λ _, square 7%Z) 0)))
          [empty_cell (tyD:=rtyD) RInt] = (h', None) ∧
        future_get (Future 0 : future RInt) h' = Some (Returned 49%Z).
Proof.
  destruct (X7_run_me_fulfils_its_future rtyD
              (MkTask (PackagedTask (λ _, square 7%Z) 0) : Task rtyD RInt)
              [empty_cell RInt])
    as (h' & Hrun & Hget & _); [vm_compute; reflexivity|].
  exists h'. split; [exact Hrun|exact Hget].
Defined.

Lemma X8_witness :
  future_get (Future 0 : future RInt)
    (heap (state_after rtyD 1
             (one_task_run rtyD square 7%Z ++ destruction1 rtyD))) =
  Some (Returned 49%Z).
Proof.
  apply (X8_results_are_stable rtyD (Future 0 : future RInt) (destruction1 rtyD)
           (state_after rtyD 1 (one_task_run rtyD square 7%Z)));
    vm_compute; reflexivity.
Defined.

Lemma X9_witness :
  fut_state (Future 0 : future RInt) < fut_state (Future 1 : future RUnit).
Proof.
  apply (X9_futures_are_distinct rtyD no_faults no_faults 0 0 square 7%Z boom tt
           (serving rtyD 0)
           (state_after rtyD 1 (construction rtyD 1))
           (state_after rtyD 1
              (construction rtyD 1 ++ [LSubmit RInt no_faults 0 square 7%Z]))
           (state_after rtyD 1 (one_task_run rtyD square 7%Z))
           (state_after rtyD 1
              (one_task_run rtyD square 7%Z ++ [LSubmit RUnit no_faults 0 boom tt])));
    vm_compute; reflexivity.
Defined.

Lemma X11_witness :
  pushes (trace (state_after rtyD 1 (two_pushed_one_run rtyD square 7%Z boom tt))) =
  runs (trace (state_after rtyD 1 (two_pushed_one_run rtyD square 7%Z boom tt))) ++
  held_tasks rtyD
    (m_threads (state_after rtyD 1 (two_pushed_one_run rtyD square 7%Z boom tt))) ++
  m_queue (state_after rtyD 1 (two_pushed_one_run rtyD square 7%Z boom tt)).
Proof.
  destruct (X11_single_worker_runs_in_order rtyD
              (two_pushed_one_run rtyD square 7%Z boom tt)
              (state_after rtyD 1 (two_pushed_one_run rtyD square 7%Z boom tt)))
    as (Hord & _); [vm_compute; reflexivity|exact Hord].
Defined.

Lemma X12_witness :
  ∃ i k p',
    k ≤ 6 ∧
    exec (replicate k (LWorker i))
      (state_after rtyD 1
         (construction rtyD 1 ++ [LSubmit RInt no_faults 0 square 7%Z])) = Some p' ∧
    length (pops (trace p')) = 1.
Proof.
  destruct (X12_queued_task_can_be_popped rtyD 1
              (construction rtyD 1 ++ [LSubmit RInt no_faults 0 square 7%Z])
              (state_after rtyD 1
                 (construction rtyD 1 ++ [LSubmit RInt no_faults 0 square 7%Z]))
              (new_task square 7%Z (state_after rtyD 1 (construction rtyD 1))) [])
    as (i & k & p' & Hk & Hex & Hpops & _);
    [vm_compute; reflexivity|vm_compute; reflexivity|lia|vm_compute; reflexivity|].
  exists i, k, p'. split_and!; [exact Hk|exact Hex|].
  rewrite Hpops. vm_compute. reflexivity.
Defined.

Lemma X13_witness :
  ∃ ls' p',
    exec ls' (state_after rtyD 2 (construction rtyD 2 ++ [LWorker 1; LWorker 1])) =
      Some p' ∧
    ctl p' = CDestroyed.
Proof.
  destruct (X13_destroy_can_return rtyD 2
              (construction rtyD 2 ++ [LWorker 1; LWorker 1])
              (state_after rtyD 2 (construction rtyD 2 ++ [LWorker 1; LWorker 1])))
    as (ls' & p' & Hex & _ & Hl & _); [vm_compute; reflexivity..| |].
  - intros i th Hth. vm_compute in Hth.
    destruct i as [|[|i]]; [| |discriminate Hth].
    + injection Hth as <-. discriminate.
    + injection Hth as <-. discriminate.
  - by exists ls', p'.
Defined.

Lemma X14_witness :
  ∃ p1,
    exec [LDestroy; LDestroy; LWorker 0]
      (state_after rtyD 1 (construction rtyD 1 ++ replicate 3 (LWorker 0))) =
      Some p1 ∧
    ∀ ls' p', Forall (λ l, own_step rtyD l = true) ls' →
              exec ls' p1 = Some p' → ctl p' ≠ CDestroyed.
Proof.
  destruct (X14_destroy_can_wait_forever rtyD 1
              (construction rtyD 1 ++ replicate 3 (LWorker 0))
              (state_after rtyD 1 (construction rtyD 1 ++ replicate 3 (LWorker 0)))
              0 (Thread WBlock true))
    as (p1 & Hex & _ & Hall); [vm_compute; reflexivity..|].
  exists p1. split; [exact Hex|].
  intros ls' p' Hown Hex'. by destruct (Hall ls' p' Hown Hex') as (_ & Hl & _).
Defined.

Lemma X15_witness :
  ∃ ls' p',
    exec ls'
      (state_after rtyD 1
         (construction rtyD 1 ++ [LSubmit RInt no_faults 0 square 7%Z])) = Some p' ∧
    ctl p' = CDestroyed ∧ m_queue p' = [] ∧
    new_task square 7%Z (state_after rtyD 1 (construction rtyD 1)) ∈ runs (trace p').
Proof.
  destruct (X15_drain_and_shutdown rtyD 1
              (construction rtyD 1 ++ [LSubmit RInt no_faults 0 square 7%Z])
              (state_after rtyD 1
                 (construction rtyD 1 ++ [LSubmit RInt no_faults 0 square 7%Z])))
    as (ls' & p' & Hex & _ & Hl & Hq & _ & _ & Hall);
    [vm_compute; reflexivity|vm_compute; reflexivity|lia| |].
  - intros i th Hth. vm_compute in Hth.
    destruct i as [|i]; [|discriminate Hth].
    injection Hth as <-. discriminate.
  - destruct (Hall (new_task square 7%Z (state_after rtyD 1 (construction rtyD 1))))
      as [Hrun _]; [vm_compute; apply list_elem_of_here|].
    by exists ls', p'.
Defined.


Lemma X17_witness :
  ∃ i, i ∈ m_condition
             (state_after rtyD 1 (construction rtyD 1 ++ replicate 4 (LWorker 0))) ∧
       i ∉ m_condition
             (pushed 0 square 7%Z
                (state_after rtyD 1 (construction rtyD 1 ++ replicate 4 (LWorker 0)))).
Proof.
  destruct (X17_submit_wakes_one_worker rtyD 1
              (construction rtyD 1 ++ replicate 4 (LWorker 0))
              (state_after rtyD 1 (construction rtyD 1 ++ replicate 4 (LWorker 0)))
              no_faults 0 square 7%Z (Future 0)
              (pushed 0 square 7%Z
                 (state_after rtyD 1
                    (construction rtyD 1 ++ replicate 4 (LWorker 0)))))
    as (i & Hin & Hout & _);
    [vm_compute; reflexivity|vm_compute; reflexivity|vm_compute; discriminate|].
  by exists i.
Defined.

Lemma X18_witness :
  ∃ p', exec [LSpurious 0; LWorker 0; LWorker 0; LWorker 0]
          (state_after rtyD 1 (construction rtyD 1 ++ replicate 4 (LWorker 0))) =
          Some p' ∧
        m_threads p' =
          m_threads (state_after rtyD 1
                       (construction rtyD 1 ++ replicate 4 (LWorker 0))).
Proof.
  destruct (X18_spurious_wakeup_returns_to_wait rtyD 1
              (construction rtyD 1 ++ replicate 4 (LWorker 0))
              (state_after rtyD 1 (construction rtyD 1 ++ replicate 4 (LWorker 0)))
              0)
    as (p' & Hex & Hts & _);
    [vm_compute; reflexivity|vm_compute; reflexivity|
     vm_compute; apply list_elem_of_here|vm_compute; reflexivity..|].
  by exists p'.
Defined.
